(** * English AI tutor: the live-session core of [App.tsx]

    A shallow embedding of the session component of [src/App.tsx]: the
    feedback classifier (three regular expressions over the running model
    transcript), the transcript accumulators and the turn boundary, the
    playback scheduling clock, the interruption flush, and the
    start/stop/teardown routines, followed by the properties proved of
    them. *)

From Stdlib Require Import List NArith ZArith QArith Qround Qabs Qminmax.
From Stdlib Require Import Strings.String Strings.Ascii Numbers.DecimalString.
From Stdlib Require Import Bool Lia Lqa.
Import ListNotations.

Set Implicit Arguments.

(* ================================================================== *)
(** ** JavaScript strings *)

(** A JavaScript string is a sequence of UTF-16 code units. *)
Definition jsstring := list N.

(** An ASCII literal of the source as a code-unit sequence. *)
Definition js (s : string) : jsstring :=
  map N_of_ascii (list_ascii_of_string s).

(** Truthiness of a string: [''] is the only falsy one. *)
Definition truthy (s : jsstring) : bool :=
  match s with [] => false | _ :: _ => true end.

(** [a || b] on strings. *)
Definition orElse (a b : jsstring) : jsstring :=
  if truthy a then a else b.

(** LineTerminator code points: LF, CR, LS, PS. *)
Definition isLineTerminator (c : N) : bool :=
  ((c =? 10) || (c =? 13) || (c =? 8232) || (c =? 8233))%N.

(** WhiteSpace code points (TAB, VT, FF, SP, NBSP, ZWNBSP and the
    Unicode space separators). *)
Definition isWhiteSpace (c : N) : bool :=
  ((c =? 9) || (c =? 11) || (c =? 12) || (c =? 32) || (c =? 160)
   || (c =? 5760) || ((8192 <=? c) && (c <=? 8202))
   || (c =? 8239) || (c =? 8287) || (c =? 12288) || (c =? 65279))%N.

(** What [String.prototype.trim] strips: WhiteSpace and LineTerminator. *)
Definition isTrimmed (c : N) : bool := isWhiteSpace c || isLineTerminator c.

Fixpoint trimStart (s : jsstring) : jsstring :=
  match s with
  | c :: r => if isTrimmed c then trimStart r else s
  | [] => []
  end.

Definition trimEnd (s : jsstring) : jsstring := rev (trimStart (rev s)).

(** [String.prototype.trim]. *)
Definition trim (s : jsstring) : jsstring := trimEnd (trimStart s).

(* ================================================================== *)
(** ** Regular expressions

    The three patterns of the classifier use pattern characters, [.],
    a lazy star, one capturing group, a positive lookahead, an
    alternation and [$], under the [i] flag.  The matcher below follows
    the continuation-passing matchers of the ECMAScript specification
    for exactly these constructs. *)
Module RegExp.

Inductive regex : Type :=
| Char (c : N)               (* a pattern character *)
| Dot                        (* [.] without the [s] flag *)
| Eos                        (* [$] without the [m] flag *)
| Seq (r1 r2 : regex)
| Alt (r1 r2 : regex)        (* [r1|r2] *)
| LazyStar (r : regex)       (* [r*?] *)
| Group (r : regex)          (* [(r)], capturing group 1 *)
| LookAhead (r : regex).     (* [(?=r)] *)

(** Canonicalize under the [i] flag (no [u] flag): a code unit is
  compared through its upper-case form.  All pattern characters of
  this program are ASCII, and a non-ASCII code unit never
  canonicalizes to an ASCII one, so only the mapping of [a]-[z] can
  make two code units meet; other code units are left as they are. *)
Definition canonicalize (c : N) : N :=
if ((97 <=? c) && (c <=? 122))%N then (c - 32)%N else c.

(** A match state: the input not yet consumed and capture 1. *)
Record MatchState : Type := mkState {
rest : jsstring;
capture1 : option jsstring
}.

Definition MatchResult := option MatchState.

(** [matcher r x k]: match [r] from state [x], then continue with [k].
  The lazy star first tries the continuation and only then one more
  iteration; an iteration that consumes nothing is rejected, so the
  number of iterations is bounded by the length of the remaining
  input, which is what [fuel] counts. *)
Fixpoint matcher (r : regex) (x : MatchState)
       (k : MatchState -> MatchResult) {struct r} : MatchResult :=
match r with
| Char c =>
    match rest x with
    | a :: t =>
        if (canonicalize a =? canonicalize c)%N
        then k (mkState t (capture1 x)) else None
    | [] => None
    end
| Dot =>
    match rest x with
    | a :: t =>
        if isLineTerminator a then None else k (mkState t (capture1 x))
    | [] => None
    end
| Eos =>
    match rest x with
    | [] => k x
    | _ :: _ => None
    end
| Seq r1 r2 => matcher r1 x (fun y => matcher r2 y k)
| Alt r1 r2 =>
    match matcher r1 x k with
    | Some z => Some z
    | None => matcher r2 x k
    end
| LazyStar r1 =>
    (fix repeat (fuel : nat) (y : MatchState) {struct fuel} : MatchResult :=
       match k y with
       | Some z => Some z
       | None =>
           match fuel with
           | O => None
           | S fuel' =>
               matcher r1 y (fun y' =>
                 if (List.length (rest y') <? List.length (rest y))%nat
                 then repeat fuel' y' else None)
           end
       end) (List.length (rest x)) x
| Group r1 =>
    matcher r1 x (fun y =>
      k (mkState (rest y)
           (Some (firstn (List.length (rest x) - List.length (rest y))
                         (rest x)))))
| LookAhead r1 =>
    match matcher r1 x (fun y => Some y) with
    | Some y => k (mkState (rest x) (capture1 y))
    | None => None
    end
end.

(** A literal run of pattern characters. *)
Fixpoint lit (s : jsstring) (tail : regex) : regex :=
match s with
| [] => tail
| c :: s' => Seq (Char c) (lit s' tail)
end.

(** [RegExpBuiltinExec] for a pattern without the [g] and [y] flags:
  the match is tried at index 0, 1, ... up to the length of the
  string, and the first index that matches wins.  The result is the
  final state: its [capture1] is element [1] of the match array. *)
Fixpoint exec (r : regex) (s : jsstring) : MatchResult :=
match matcher r (mkState s None) (fun y => Some y) with
| Some y => Some y
| None =>
    match s with
    | [] => None
    | _ :: t => exec r t
    end
end.

End RegExp.

Import RegExp.

(* ================================================================== *)
(** ** The feedback classifier *)

Inductive Category : Type :=
| Grammar | Pronunciation | NaturalPhrasing | General.

Record CategorizedFeedback : Type := mkFeedback {
  category : Category;
  text : jsstring
}.

(** The tag markers as they are written in the three patterns. *)
Definition grammarTag : jsstring := js "[Grammar]".
Definition pronunciationTag : jsstring := js "[Pronunciation]".
Definition naturalTag : jsstring := js "[Natural Phrasing]".

Definition LBRACKET : N := 91.

(** [(.*?)(?=\[|$)], the common tail of the three patterns. *)
Definition captureTail : regex :=
  Seq (Group (LazyStar Dot)) (LookAhead (Alt (Char LBRACKET) Eos)).

(** [/\[Grammar\](.*?)(?=\[|$)/i] and its two siblings. *)
Definition grammarRe : regex := lit grammarTag captureTail.
Definition pronunciationRe : regex := lit pronunciationTag captureTail.
Definition naturalRe : regex := lit naturalTag captureTail.

(** What one classification does to the latest feedback item; [Throws]
    is the [TypeError] of calling [trim] on an absent capture. *)
Inductive Classification : Type :=
| NoEmit
| Emit (f : CategorizedFeedback)
| Throws.

(** [m[1].trim()] wrapped into a feedback item. *)
Definition emitFrom (c : Category) (m : MatchState) : Classification :=
  match capture1 m with
  | Some t => Emit (mkFeedback c (trim t))
  | None => Throws
  end.

(** Lines 184-195 of [App.tsx]: the three matches and the
    if / else-if chain over them. *)
Definition classifyFeedback (fullModelText : jsstring) : Classification :=
  let grammarMatch := exec grammarRe fullModelText in
  let pronunciationMatch := exec pronunciationRe fullModelText in
  let naturalMatch := exec naturalRe fullModelText in
  match grammarMatch with
  | Some m => emitFrom Grammar m
  | None =>
      match pronunciationMatch with
      | Some m => emitFrom Pronunciation m
      | None =>
          match naturalMatch with
          | Some m => emitFrom NaturalPhrasing m
          | None => NoEmit
          end
      end
  end.

(* ================================================================== *)
(** ** Data model ([types.ts] and the component state of [App.tsx]) *)

Inductive SessionStatus : Type := IDLE | CONNECTING | ACTIVE | ERROR.

Inductive Role : Type := user | model.

Module Message.
Record t : Type := mk {
  id : jsstring;
  role : Role;
  text : jsstring;
  timestamp : Z
}.
End Message.

(** The live-display state [{ user, model }]. *)
Module Transcription.
Record t : Type := mk {
  user : jsstring;
  model : jsstring
}.
End Transcription.

(** [buffer.duration] of an [AudioBuffer]: its length in sample frames
    over its sample rate.  The decoder ([decodeAudioData] of
    services/audioUtils) is not part of the sources; the decoded buffer
    is an input of the model.

    Times are numbers of seconds.  The source holds them in doubles; the
    model takes them as exact rationals.  The schedule is compared, never
    measured: what is used of [Math.max] and [+] is that the maximum
    bounds both arguments and that adding a duration, which is never
    negative, does not move a time back. *)
Record AudioBuffer : Type := mkBuffer {
  frames : N;
  sampleRate : positive
}.

Definition duration (b : AudioBuffer) : Q := Z.of_N (frames b) # sampleRate b.

(** One [source.start(when)] call: the source node, the start time it
    was given, the duration of its buffer, and the value of
    [ctx.currentTime] that the handler read on line 163 for it. *)
Record PlaybackBuffer : Type := mkPlayback {
  source : nat;
  startTime : Q;
  bufferDuration : Q;
  clockAtScheduling : Q
}.

(** Calls into the audio devices and the transport, in program order. *)
Inductive Effect : Type :=
| Disconnect (node : nat)            (* scriptProcessor.disconnect() *)
| CloseContext (ctx : nat)           (* audioContext.close() *)
| SourceStop (src : nat)             (* source.stop() *)
| SourceStart (b : PlaybackBuffer)   (* source.start(nextStartTime) *)
| Connect (session : nat)            (* ai.live.connect(...) *)
| SessionClose (session : nat).      (* promise.then(s => s.close()) *)

(** The fields of an inbound message that [onmessage] reads.
    [audioData] is the value of the optional chain
    [serverContent?.modelTurn?.parts[0]?.inlineData?.data]; a
    transcription object may be present with its [text] undefined. *)
Record LiveServerMessage : Type := mkMessage {
  audioData : option jsstring;
  inputTranscription : option (option jsstring);
  outputTranscription : option (option jsstring);
  turnComplete : bool;
  interrupted : bool
}.

(** An [onmessage] invocation waiting at [await decodeAudioData(...)]:
    the message, the captured [ctx] and the clock value it read. *)
Record Suspended : Type := mkSuspended {
  pendingMessage : LiveServerMessage;
  pendingCtx : nat;
  pendingClock : Q
}.

(** The component: React state, the refs, and the world around them
    (the log of external calls, the allocator of object identities, and
    the invocations suspended at an [await]).  The avatar reaction and
    the scroll position belong to the presentation and are left out. *)
Record AppState : Type := mkApp {
  status : SessionStatus;
  messages : list Message.t;
  transcription : Transcription.t;
  latestFeedback : option CategorizedFeedback;
  isLanding : bool;
  inputAudioContextRef : option nat;
  outputAudioContextRef : option nat;
  scriptProcessorRef : option nat;
  nextStartTimeRef : Q;
  sourcesRef : list nat;               (* a Set, in insertion order *)
  sessionPromiseRef : option nat;
  currentUserTextRef : jsstring;
  currentModelTextRef : jsstring;
  effects : list Effect;
  nextObject : nat;
  suspended : list Suspended;
  awaitingMedia : nat                  (* startSession calls at getUserMedia *)
}.

Definition initialState : AppState :=
  mkApp IDLE [] (Transcription.mk [] []) None true
        None None None 0 [] None [] [] [] 0 [] 0.

Section Setters.
Variable st : AppState.

Definition setStatus v := mkApp v (messages st) (transcription st)
  (latestFeedback st) (isLanding st) (inputAudioContextRef st)
  (outputAudioContextRef st) (scriptProcessorRef st) (nextStartTimeRef st)
  (sourcesRef st) (sessionPromiseRef st) (currentUserTextRef st)
  (currentModelTextRef st) (effects st) (nextObject st) (suspended st)
  (awaitingMedia st).
Definition setMessages v := mkApp (status st) v (transcription st)
  (latestFeedback st) (isLanding st) (inputAudioContextRef st)
  (outputAudioContextRef st) (scriptProcessorRef st) (nextStartTimeRef st)
  (sourcesRef st) (sessionPromiseRef st) (currentUserTextRef st)
  (currentModelTextRef st) (effects st) (nextObject st) (suspended st)
  (awaitingMedia st).
Definition setTranscription v := mkApp (status st) (messages st) v
  (latestFeedback st) (isLanding st) (inputAudioContextRef st)
  (outputAudioContextRef st) (scriptProcessorRef st) (nextStartTimeRef st)
  (sourcesRef st) (sessionPromiseRef st) (currentUserTextRef st)
  (currentModelTextRef st) (effects st) (nextObject st) (suspended st)
  (awaitingMedia st).
Definition setLatestFeedback v := mkApp (status st) (messages st)
  (transcription st) v (isLanding st) (inputAudioContextRef st)
  (outputAudioContextRef st) (scriptProcessorRef st) (nextStartTimeRef st)
  (sourcesRef st) (sessionPromiseRef st) (currentUserTextRef st)
  (currentModelTextRef st) (effects st) (nextObject st) (suspended st)
  (awaitingMedia st).
Definition setIsLanding v := mkApp (status st) (messages st)
  (transcription st) (latestFeedback st) v (inputAudioContextRef st)
  (outputAudioContextRef st) (scriptProcessorRef st) (nextStartTimeRef st)
  (sourcesRef st) (sessionPromiseRef st) (currentUserTextRef st)
  (currentModelTextRef st) (effects st) (nextObject st) (suspended st)
  (awaitingMedia st).
Definition setInputAudioContext v := mkApp (status st) (messages st)
  (transcription st) (latestFeedback st) (isLanding st) v
  (outputAudioContextRef st) (scriptProcessorRef st) (nextStartTimeRef st)
  (sourcesRef st) (sessionPromiseRef st) (currentUserTextRef st)
  (currentModelTextRef st) (effects st) (nextObject st) (suspended st)
  (awaitingMedia st).
Definition setOutputAudioContext v := mkApp (status st) (messages st)
  (transcription st) (latestFeedback st) (isLanding st)
  (inputAudioContextRef st) v (scriptProcessorRef st) (nextStartTimeRef st)
  (sourcesRef st) (sessionPromiseRef st) (currentUserTextRef st)
  (currentModelTextRef st) (effects st) (nextObject st) (suspended st)
  (awaitingMedia st).
Definition setScriptProcessor v := mkApp (status st) (messages st)
  (transcription st) (latestFeedback st) (isLanding st)
  (inputAudioContextRef st) (outputAudioContextRef st) v
  (nextStartTimeRef st) (sourcesRef st) (sessionPromiseRef st)
  (currentUserTextRef st) (currentModelTextRef st) (effects st)
  (nextObject st) (suspended st) (awaitingMedia st).
Definition setNextStartTime v := mkApp (status st) (messages st)
  (transcription st) (latestFeedback st) (isLanding st)
  (inputAudioContextRef st) (outputAudioContextRef st)
  (scriptProcessorRef st) v (sourcesRef st) (sessionPromiseRef st)
  (currentUserTextRef st) (currentModelTextRef st) (effects st)
  (nextObject st) (suspended st) (awaitingMedia st).
Definition setSources v := mkApp (status st) (messages st)
  (transcription st) (latestFeedback st) (isLanding st)
  (inputAudioContextRef st) (outputAudioContextRef st)
  (scriptProcessorRef st) (nextStartTimeRef st) v (sessionPromiseRef st)
  (currentUserTextRef st) (currentModelTextRef st) (effects st)
  (nextObject st) (suspended st) (awaitingMedia st).
Definition setSessionPromise v := mkApp (status st) (messages st)
  (transcription st) (latestFeedback st) (isLanding st)
  (inputAudioContextRef st) (outputAudioContextRef st)
  (scriptProcessorRef st) (nextStartTimeRef st) (sourcesRef st) v
  (currentUserTextRef st) (currentModelTextRef st) (effects st)
  (nextObject st) (suspended st) (awaitingMedia st).
Definition setCurrentUserText v := mkApp (status st) (messages st)
  (transcription st) (latestFeedback st) (isLanding st)
  (inputAudioContextRef st) (outputAudioContextRef st)
  (scriptProcessorRef st) (nextStartTimeRef st) (sourcesRef st)
  (sessionPromiseRef st) v (currentModelTextRef st) (effects st)
  (nextObject st) (suspended st) (awaitingMedia st).
Definition setCurrentModelText v := mkApp (status st) (messages st)
  (transcription st) (latestFeedback st) (isLanding st)
  (inputAudioContextRef st) (outputAudioContextRef st)
  (scriptProcessorRef st) (nextStartTimeRef st) (sourcesRef st)
  (sessionPromiseRef st) (currentUserTextRef st) v (effects st)
  (nextObject st) (suspended st) (awaitingMedia st).
Definition setEffects v := mkApp (status st) (messages st)
  (transcription st) (latestFeedback st) (isLanding st)
  (inputAudioContextRef st) (outputAudioContextRef st)
  (scriptProcessorRef st) (nextStartTimeRef st) (sourcesRef st)
  (sessionPromiseRef st) (currentUserTextRef st) (currentModelTextRef st)
  v (nextObject st) (suspended st) (awaitingMedia st).
Definition setNextObject v := mkApp (status st) (messages st)
  (transcription st) (latestFeedback st) (isLanding st)
  (inputAudioContextRef st) (outputAudioContextRef st)
  (scriptProcessorRef st) (nextStartTimeRef st) (sourcesRef st)
  (sessionPromiseRef st) (currentUserTextRef st) (currentModelTextRef st)
  (effects st) v (suspended st) (awaitingMedia st).
Definition setSuspended v := mkApp (status st) (messages st)
  (transcription st) (latestFeedback st) (isLanding st)
  (inputAudioContextRef st) (outputAudioContextRef st)
  (scriptProcessorRef st) (nextStartTimeRef st) (sourcesRef st)
  (sessionPromiseRef st) (currentUserTextRef st) (currentModelTextRef st)
  (effects st) (nextObject st) v (awaitingMedia st).
Definition setAwaitingMedia v := mkApp (status st) (messages st)
  (transcription st) (latestFeedback st) (isLanding st)
  (inputAudioContextRef st) (outputAudioContextRef st)
  (scriptProcessorRef st) (nextStartTimeRef st) (sourcesRef st)
  (sessionPromiseRef st) (currentUserTextRef st) (currentModelTextRef st)
  (effects st) (nextObject st) (suspended st) v.
End Setters.

(* ================================================================== *)
(** ** Handlers as state transformers that may throw *)

Inductive Outcome (A : Type) : Type :=
| Ok (a : A) (st : AppState)
| Thrown (st : AppState).

Arguments Thrown {A} st.

Definition M (A : Type) : Type := AppState -> Outcome A.

Definition ret {A} (a : A) : M A := fun st => Ok a st.

Definition bind {A B} (c : M A) (f : A -> M B) : M B :=
  fun st => match c st with
            | Ok a st' => f a st'
            | Thrown st' => Thrown st'
            end.

Definition throw {A} : M A := fun st => Thrown st.

(** [try { body } catch (e) { handler }]. *)
Definition tryCatch (body handler : M unit) : M unit :=
  fun st => match body st with
            | Ok a st' => Ok a st'
            | Thrown st' => handler st'
            end.

Definition modify (f : AppState -> AppState) : M unit :=
  fun st => Ok tt (f st).

Definition read {A} (f : AppState -> A) : M A := fun st => Ok (f st) st.

Declare Scope app_scope.
Delimit Scope app_scope with app.
Notation "x <- c1 ;; c2" := (bind c1 (fun x => c2))
  (at level 61, c1 at next level, right associativity) : app_scope.
Notation "c1 ;; c2" := (bind c1 (fun _ => c2))
  (at level 61, right associativity) : app_scope.
Open Scope app_scope.

(** The state an invocation leaves behind, thrown or not. *)
Definition finalState {A} (o : Outcome A) : AppState :=
  match o with Ok _ st => st | Thrown st => st end.

(** [ref.current.method()]: a [TypeError] when the ref holds null. *)
Definition deref {A} (r : AppState -> option A) : M A :=
  fun st => match r st with
            | Some a => Ok a st
            | None => Thrown st
            end.

Definition isSome {A} (o : option A) : bool :=
  match o with Some _ => true | None => false end.

Definition perform (e : Effect) : M unit :=
  modify (fun st => setEffects st (effects st ++ [e])).

(** A new object identity ([new AudioContext], [createBufferSource]...). *)
Definition fresh : M nat :=
  fun st => Ok (nextObject st) (setNextObject st (S (nextObject st))).

(** [set.forEach(f)], over the elements in insertion order. *)
Fixpoint forEach (l : list nat) (f : nat -> M unit) : M unit :=
  match l with
  | [] => ret tt
  | x :: l' => f x ;; forEach l' f
  end.

(** [set.add(x)] and [set.delete(x)]. *)
Definition setAdd (x : nat) (l : list nat) : list nat :=
  if existsb (Nat.eqb x) l then l else l ++ [x].

Definition setDelete (x : nat) (l : list nat) : list nat :=
  filter (fun y => negb (Nat.eqb x y)) l.

Definition when (b : bool) (c : M unit) : M unit :=
  if b then c else ret tt.

(** [Number.prototype.toString] of an integral time value. *)
Definition numberToString (z : Z) : jsstring :=
  js (NilZero.string_of_int (Z.to_int z)).

(** [x += text] with [text] possibly undefined. *)
Definition textOf (t : option jsstring) : jsstring :=
  match t with
  | Some x => x
  | None => js "undefined"
  end.

(** The four clock readings of one turn boundary: [Date.now()] for the
    two ids and [new Date()] for the two timestamps. *)
Record Readings : Type := mkReadings {
  userIdNow : Z;
  userTimestamp : Z;
  modelIdNow : Z;
  modelTimestamp : Z
}.

(** Which of the constructors called by [startSession] throw. *)
Record StartEnv : Type := mkStartEnv {
  genAIThrows : bool;
  inputContextThrows : bool;
  outputContextThrows : bool
}.

(* ================================================================== *)
(** ** The routines of [App.tsx] *)

Section Handlers.

(** Whether [stop()] raises on a given source node; the program makes
    no assumption about it. *)
Variable stopThrows : nat -> bool.

Definition sourceStop (s : nat) : M unit :=
  perform (SourceStop s) ;;
  if stopThrows s then throw else ret tt.

(** Lines 54-66.  [disconnect()] and [close()] do not throw: a failed
    [close()] is reported through the promise it returns, which the
    program drops. *)
Definition cleanupAudio : M unit :=
  p <- read scriptProcessorRef ;;
  when (isSome p)
    (n <- deref scriptProcessorRef ;; perform (Disconnect n)) ;;
  i <- read inputAudioContextRef ;;
  when (isSome i)
    (c <- deref inputAudioContextRef ;; perform (CloseContext c)) ;;
  o <- read outputAudioContextRef ;;
  when (isSome o)
    (c <- deref outputAudioContextRef ;; perform (CloseContext c)) ;;
  srcs <- read sourcesRef ;;
  forEach srcs (fun source => tryCatch (sourceStop source) (ret tt)) ;;
  modify (fun st => setSources st []) ;;
  modify (fun st => setInputAudioContext st None) ;;
  modify (fun st => setOutputAudioContext st None) ;;
  modify (fun st => setScriptProcessor st None) ;;
  modify (fun st => setNextStartTime st 0).

(** Lines 68-74. *)
Definition resetConversation : M unit :=
  modify (fun st => setMessages st []) ;;
  modify (fun st => setTranscription st (Transcription.mk [] [])) ;;
  modify (fun st => setLatestFeedback st None) ;;
  modify (fun st => setCurrentUserText st []) ;;
  modify (fun st => setCurrentModelText st []).

Definition construct (throws : bool) : M nat :=
  if throws then throw else fresh.

(** The [catch] clause of [startSession], lines 234-238. *)
Definition startSessionCatch : M unit :=
  modify (fun st => setStatus st ERROR) ;;
  cleanupAudio.

(** Lines 118-127: [startSession] up to [await getUserMedia]. *)
Definition startSession (env : StartEnv) : M unit :=
  tryCatch
    (modify (fun st => setIsLanding st false) ;;
     modify (fun st => setStatus st CONNECTING) ;;
     _ <- construct (genAIThrows env) ;;
     i <- construct (inputContextThrows env) ;;
     modify (fun st => setInputAudioContext st (Some i)) ;;
     o <- construct (outputContextThrows env) ;;
     modify (fun st => setOutputAudioContext st (Some o)) ;;
     modify (fun st => setAwaitingMedia st (S (awaitingMedia st))))
    startSessionCatch.

(** Lines 127-233: [startSession] resumed when [getUserMedia] settles.
    [ai.live.connect] returns a promise that is stored, not awaited. *)
Definition startSessionResume (granted : bool) : M unit :=
  tryCatch
    ((if granted then ret tt else throw) ;;
     s <- fresh ;;
     perform (Connect s) ;;
     modify (fun st => setSessionPromise st (Some s)))
    startSessionCatch.

(** Lines 141-158; the two [inputAudioContextRef.current!] are
    dereferences that throw on null. *)
Definition onopen : M unit :=
  modify (fun st => setStatus st ACTIVE) ;;
  _ <- deref inputAudioContextRef ;;
  _ <- deref inputAudioContextRef ;;
  p <- fresh ;;
  modify (fun st => setScriptProcessor st (Some p)) ;;
  _ <- deref scriptProcessorRef ;;
  _ <- deref inputAudioContextRef ;;
  ret tt.

(** Lines 160-164: [onmessage] up to [await decodeAudioData].  The
    result tells whether the invocation is now suspended there. *)
Definition onmessageStart (message : LiveServerMessage) (currentTime : Q)
  : M bool :=
  o <- read outputAudioContextRef ;;
  match audioData message, o with
  | Some d, Some ctx =>
      if truthy d then
        modify (fun st =>
          setNextStartTime st (Qmax (nextStartTimeRef st) currentTime)) ;;
        modify (fun st =>
          setSuspended st
            (suspended st ++ [mkSuspended message ctx currentTime])) ;;
        ret true
      else ret false
  | _, _ => ret false
  end.

(** Lines 165-171, with the decoded buffer. *)
Definition onmessageSchedule (ctx : nat) (clock : Q) (buffer : AudioBuffer)
  : M unit :=
  source <- fresh ;;
  t <- read nextStartTimeRef ;;
  perform (SourceStart (mkPlayback source t (duration buffer) clock)) ;;
  modify (fun st =>
    setNextStartTime st (nextStartTimeRef st + duration buffer)) ;;
  modify (fun st => setSources st (setAdd source (sourcesRef st))).

(** The ['ended'] listener of line 168. *)
Definition onended (source : nat) : M unit :=
  modify (fun st => setSources st (setDelete source (sourcesRef st))).

(** Lines 174-178.  State setters are applied at once; the updater
    reads the ref, as the source's does. *)
Definition onInputTranscription (t : option jsstring) : M unit :=
  modify (fun st =>
    setCurrentUserText st (currentUserTextRef st ++ textOf t)) ;;
  modify (fun st =>
    setTranscription st
      (Transcription.mk (currentUserTextRef st)
                        (Transcription.model (transcription st)))).

(** Lines 179-196. *)
Definition onOutputTranscription (t : option jsstring) : M unit :=
  modify (fun st =>
    setCurrentModelText st (currentModelTextRef st ++ textOf t)) ;;
  modify (fun st =>
    setTranscription st
      (Transcription.mk (Transcription.user (transcription st))
                        (currentModelTextRef st))) ;;
  fullModelText <- read currentModelTextRef ;;
  match classifyFeedback fullModelText with
  | Emit f => modify (fun st => setLatestFeedback st (Some f))
  | NoEmit => ret tt
  | Throws => throw
  end.

(** Lines 198-213. *)
Definition onTurnComplete (clk : Readings) : M unit :=
  uText <- read currentUserTextRef ;;
  mText <- read currentModelTextRef ;;
  when (truthy uText || truthy mText)
    (modify (fun st =>
       setMessages st
         (messages st ++
          [ Message.mk (numberToString (userIdNow clk) ++ js "-user")
                       user (orElse uText (js "..."))
                       (userTimestamp clk);
            Message.mk (numberToString (modelIdNow clk) ++ js "-model")
                       model (orElse mText (js "..."))
                       (modelTimestamp clk) ]))) ;;
  modify (fun st => setCurrentUserText st []) ;;
  modify (fun st => setCurrentModelText st []) ;;
  modify (fun st => setTranscription st (Transcription.mk [] [])).

(** Lines 215-221. *)
Definition onInterrupted : M unit :=
  srcs <- read sourcesRef ;;
  forEach srcs (fun s => tryCatch (sourceStop s) (ret tt)) ;;
  modify (fun st => setSources st []) ;;
  modify (fun st => setNextStartTime st 0).

(** Lines 174-221: [onmessage] after the audio block. *)
Definition onmessageRest (message : LiveServerMessage) (clk : Readings)
  : M unit :=
  match inputTranscription message with
  | Some t => onInputTranscription t
  | None => ret tt
  end ;;
  match outputTranscription message with
  | Some t => onOutputTranscription t
  | None => ret tt
  end ;;
  when (turnComplete message) (onTurnComplete clk) ;;
  when (interrupted message) onInterrupted.

(** Lines 223-231. *)
Definition onerror : M unit :=
  modify (fun st => setStatus st ERROR) ;;
  cleanupAudio.

Definition onclose : M unit :=
  modify (fun st => setStatus st IDLE) ;;
  cleanupAudio.

(** Lines 241-249. *)
Definition stopSession : M unit :=
  p <- read sessionPromiseRef ;;
  when (isSome p)
    (s <- deref sessionPromiseRef ;;
     perform (SessionClose s) ;;
     modify (fun st => setSessionPromise st None)) ;;
  cleanupAudio ;;
  modify (fun st => setStatus st IDLE) ;;
  modify (fun st => setIsLanding st true).

(* ---------------------------------------------------------------- *)
(** *** The event loop

    Everything runs on one thread; an event is a click on a rendered
    control, a callback of the transport or of an audio node, or the
    settling of an awaited promise. *)

Inductive Event : Type :=
| ClickStart (env : StartEnv)
| ClickStop
| ClickReset
| MediaSettled (granted : bool)
| SessionOpen
| SessionMessage (message : LiveServerMessage) (currentTime : Q)
                 (clk : Readings)
| DecodeDone (k : nat) (buffer : AudioBuffer) (clk : Readings)
| DecodeFailed (k : nat)
| SourceEnded (source : nat)
| SessionError
| SessionClosed.

(** The start button belongs to the landing view (lines 266-311), the
    stop and reset buttons to the lesson view (lines 313 on); a
    promise settles only if an invocation awaits it. *)
Definition enabled (e : Event) (st : AppState) : bool :=
  match e with
  | ClickStart _ => isLanding st
  | ClickStop | ClickReset => negb (isLanding st)
  | MediaSettled _ => (0 <? awaitingMedia st)%nat
  | DecodeDone k _ _ | DecodeFailed k =>
      (k <? List.length (suspended st))%nat
  | _ => true
  end.

Fixpoint removeNth {A} (k : nat) (l : list A) : list A :=
  match k, l with
  | _, [] => []
  | O, _ :: t => t
  | S k', x :: t => x :: removeNth k' t
  end.

Definition handler (e : Event) : M unit :=
  match e with
  | ClickStart env => startSession env
  | ClickStop => stopSession
  | ClickReset => resetConversation
  | MediaSettled granted =>
      modify (fun st => setAwaitingMedia st (pred (awaitingMedia st))) ;;
      startSessionResume granted
  | SessionOpen => onopen
  | SessionMessage message currentTime clk =>
      waits <- onmessageStart message currentTime ;;
      if (waits : bool) then ret tt else onmessageRest message clk
  | DecodeDone k buffer clk =>
      l <- read suspended ;;
      match nth_error l k with
      | Some p =>
          modify (fun st => setSuspended st (removeNth k l)) ;;
          onmessageSchedule (pendingCtx p) (pendingClock p) buffer ;;
          onmessageRest (pendingMessage p) clk
      | None => ret tt
      end
  | DecodeFailed k =>
      modify (fun st => setSuspended st (removeNth k (suspended st)))
  | SourceEnded source => onended source
  | SessionError => onerror
  | SessionClosed => onclose
  end.

(** An exception that escapes a handler ends that handler only; the
    component keeps the state reached. *)
Definition fire (e : Event) (st : AppState) : AppState :=
  finalState (handler e st).

Fixpoint run (es : list Event) (st : AppState) : option AppState :=
  match es with
  | [] => Some st
  | e :: es' => if enabled e st then run es' (fire e st) else None
  end.

End Handlers.

(* ================================================================== *)
(** ** What the classifier computes, stated without the matcher *)

(** [tag] is a prefix of [s] once letter case is ignored. *)
Fixpoint ciPrefix (tag s : jsstring) : bool :=
  match tag, s with
  | [], _ => true
  | c :: tag', a :: s' =>
      (canonicalize a =? canonicalize c)%N && ciPrefix tag' s'
  | _ :: _, [] => false
  end.

(** Two strings that differ in letter case only. *)
Fixpoint sameLetters (a b : jsstring) : bool :=
  match a, b with
  | [], [] => true
  | x :: a', y :: b' =>
      (canonicalize x =? canonicalize y)%N && sameLetters a' b'
  | _, _ => false
  end.

(** The index of the first occurrence of [tag] in [s], in any case. *)
Fixpoint indexOfTag (tag s : jsstring) {struct s} : option nat :=
  if ciPrefix tag s then Some O
  else match s with
       | [] => None
       | _ :: t => option_map S (indexOfTag tag t)
       end.

Definition includesTag (tag s : jsstring) : bool :=
  isSome (indexOfTag tag s).

(** The text before the first [[] of [s], all of [s] if it has none. *)
Fixpoint upToBracket (s : jsstring) : jsstring :=
  match s with
  | [] => []
  | c :: r => if (c =? LBRACKET)%N then [] else c :: upToBracket r
  end.

Definition noLineTerminator (s : jsstring) : bool :=
  forallb (fun c => negb (isLineTerminator c)) s.

(** The trimmed text between the first occurrence of [tag] and the next
    [[] (or the end). *)
Definition feedbackAfter (tag s : jsstring) : option jsstring :=
  match indexOfTag tag s with
  | Some i => Some (trim (upToBracket (skipn (i + List.length tag) s)))
  | None => None
  end.

(** Priority Grammar, Pronunciation, Natural Phrasing over
    [feedbackAfter]. *)
Definition classifyByPriority (s : jsstring) : Classification :=
  match feedbackAfter grammarTag s with
  | Some t => Emit (mkFeedback Grammar t)
  | None =>
      match feedbackAfter pronunciationTag s with
      | Some t => Emit (mkFeedback Pronunciation t)
      | None =>
          match feedbackAfter naturalTag s with
          | Some t => Emit (mkFeedback NaturalPhrasing t)
          | None => NoEmit
          end
      end
  end.

(** The reading in which the captured text runs to the next occurrence
    of one of the three markers, rather than to the next [[]. *)
Definition anyTagAt (s : jsstring) : bool :=
  ciPrefix grammarTag s || ciPrefix pronunciationTag s
  || ciPrefix naturalTag s.

Fixpoint upToNextTag (s : jsstring) {struct s} : jsstring :=
  if anyTagAt s then []
  else match s with
       | [] => []
       | c :: r => c :: upToNextTag r
       end.

Definition feedbackToNextTag (tag s : jsstring) : option jsstring :=
  match indexOfTag tag s with
  | Some i => Some (trim (upToNextTag (skipn (i + List.length tag) s)))
  | None => None
  end.

Definition classifyToNextTag (s : jsstring) : Classification :=
  match feedbackToNextTag grammarTag s with
  | Some t => Emit (mkFeedback Grammar t)
  | None =>
      match feedbackToNextTag pronunciationTag s with
      | Some t => Emit (mkFeedback Pronunciation t)
      | None =>
          match feedbackToNextTag naturalTag s with
          | Some t => Emit (mkFeedback NaturalPhrasing t)
          | None => NoEmit
          end
      end
  end.

(** The capture of [(.*?)(?=\[|$)] from the start of [s]: the text up
    to the first [[] or the end, unless a line terminator comes first. *)
Fixpoint scan (s : jsstring) : option jsstring :=
  match s with
  | [] => Some []
  | c :: r =>
      if (c =? LBRACKET)%N then Some []
      else if isLineTerminator c then None
      else option_map (cons c) (scan r)
  end.

Definition matchAt (tag s : jsstring) : option jsstring :=
  if ciPrefix tag s then scan (skipn (List.length tag) s) else None.

Fixpoint firstMatch (tag s : jsstring) {struct s} : option jsstring :=
  match matchAt tag s with
  | Some c => Some c
  | None =>
      match s with
      | [] => None
      | _ :: t => firstMatch tag t
      end
  end.

Definition bracketFree (s : jsstring) : bool :=
  forallb (fun c => negb (c =? LBRACKET)%N) s.

(** A marker is an opening bracket followed by bracket-free text. *)
Definition tagShape (tag : jsstring) : Prop :=
  exists body, tag = LBRACKET :: body /\ bracketFree body = true.

(** One of the three markers of the classifier. *)
Definition isTag (tag : jsstring) : Prop :=
  tag = grammarTag \/ tag = pronunciationTag \/ tag = naturalTag.

(** What [cleanupAudio] calls on the devices, from the refs it finds. *)
Definition teardownEffects (st : AppState) : list Effect :=
  match scriptProcessorRef st with Some n => [Disconnect n] | None => [] end
  ++ match inputAudioContextRef st with
     | Some c => [CloseContext c] | None => [] end
  ++ match outputAudioContextRef st with
     | Some c => [CloseContext c] | None => [] end
  ++ map SourceStop (sourcesRef st).

(** The state [cleanupAudio] leaves: the three device refs null, no
    tracked source, the scheduling clock at zero, the rest as it was. *)
Definition tornDown (st : AppState) : AppState :=
  mkApp (status st) (messages st) (transcription st) (latestFeedback st)
        (isLanding st) None None None 0 [] (sessionPromiseRef st)
        (currentUserTextRef st) (currentModelTextRef st)
        (effects st ++ teardownEffects st) (nextObject st) (suspended st)
        (awaitingMedia st).

(** The state after the transcript blocks of [onmessage] (lines
    174-213), before the interruption block. *)
Definition transcriptPhase (message : LiveServerMessage) (clk : Readings)
           (st : AppState) : AppState :=
  let st1 := match inputTranscription message with
             | Some t => finalState (onInputTranscription t st)
             | None => st
             end in
  let st2 := match outputTranscription message with
             | Some t => finalState (onOutputTranscription t st1)
             | None => st1
             end in
  if turnComplete message then finalState (onTurnComplete clk st2) else st2.



(** A start in which no constructor throws, and sources whose [stop()]
    never raises. *)
Definition startOk : StartEnv := mkStartEnv false false false.

Definition quietStop : nat -> bool := fun _ => false.

(** The lesson is ended while the microphone prompt is still open; the
    permission is granted afterwards and the transport opens. *)
Definition lateOpenTrace : list Event :=
  [ClickStart startOk; ClickStop; MediaSettled true; SessionOpen].

(** The transcript of section 8 with two markers, and one with a
    bracket that is not a marker. *)
Definition twoTagExample : jsstring :=
  js "[Pronunciation] Round your lips. [Grammar] Past tense needed.".

Definition bracketExample : jsstring :=
  js "[Grammar] Use [the] article.".

(** A lesson in progress: both devices open, two sources playing, a
    feedback item on display and a turn half transcribed. *)
Definition lessonState : AppState :=
  mkApp ACTIVE [] (Transcription.mk (js "I goed home") (js "[Grammar] Say"))
        (Some (mkFeedback Grammar (js "Say")))
        false (Some 1%nat) (Some 2%nat) (Some 4%nat) (3 # 2) [5%nat; 6%nat]
        (Some 3%nat) (js "I goed home") (js "[Grammar] Say") []
        7%nat [] 0%nat.

(** The same lesson with a model turn that carries no marker so far,
    and an update that adds none. *)
Definition chatState : AppState :=
  setCurrentModelText lessonState (js "Please say").

Definition chatMessage : LiveServerMessage :=
  mkMessage None None (Some (Some (js " it again."))) false false.

Definition noReadings : Readings := mkReadings 0 0 0 0.

(** The end of a turn, and an interruption. *)
Definition turnCompleteMessage : LiveServerMessage :=
  mkMessage None None None true false.

Definition interruptedMessage : LiveServerMessage :=
  mkMessage None None None false true.

(* ================================================================== *)
(** ** The playback schedule *)

(** The [source.start] calls of a log, in order. *)
Fixpoint scheduledOf (l : list Effect) : list PlaybackBuffer :=
  match l with
  | [] => []
  | SourceStart b :: t => b :: scheduledOf t
  | _ :: t => scheduledOf t
  end.

(** The [source.stop] calls of a log, in order. *)
Fixpoint stoppedOf (l : list Effect) : list nat :=
  match l with
  | [] => []
  | SourceStop s :: t => s :: stoppedOf t
  | _ :: t => stoppedOf t
  end.




(** Two audio chunks of one turn, the second arriving before the first
    is decoded; half a second and a quarter of a second of audio. *)
Definition audioMessage : LiveServerMessage :=
  mkMessage (Some (js "AAAA")) None None false false.

Definition halfSecond : AudioBuffer := mkBuffer 12000 24000.
Definition quarterSecond : AudioBuffer := mkBuffer 6000 24000.

Definition turnEvents : list Event :=
  [ SessionMessage audioMessage (2 # 1) noReadings;
    SessionMessage audioMessage (21 # 10) noReadings;
    DecodeDone 0 halfSecond noReadings;
    DecodeDone 0 quarterSecond noReadings ].

(* ================================================================== *)
(** ** The PCM encoder *)

Definition INT16_MAX : Z := 32767.
Definition INT16_MIN : Z := -32768.

(** [Math.round]: the nearest integer, ties towards positive infinity. *)
Definition mathRound (q : Q) : Z := Qfloor (q + (1 # 2)).

(** What storing [z] into an [Int16Array] keeps: [z] modulo 2^16. *)
Definition wrap16 (z : Z) : Z := (z + 32768) mod 65536 - 32768.

Definition clampInt16 (z : Z) : Z := Z.max INT16_MIN (Z.min INT16_MAX z).

Definition clampRange (q : Q) : Q :=
  if Qle_bool q (inject_Z INT16_MIN) then inject_Z INT16_MIN
  else if Qle_bool (inject_Z INT16_MAX) q then inject_Z INT16_MAX
  else q.

Section PcmCodec.

(** The rounding to nearest; the specification leaves the direction of
    ties open. *)
Variable roundNearest : Q -> Z.

(** Modelled from the spec: [createPcmBlob] of services/audioUtils is
    not among the sources.  Section 4.2, step 1: each sample is
    multiplied by 0x7FFF, clamped to the representable range of a
    16-bit signed integer, and rounded to nearest. *)
Definition encodeSample (s : Q) : Z :=
  roundNearest (clampRange (s * inject_Z 32767)).

(** Modelled from the spec: step 1 applied to every sample of a frame
    (the packing of steps 2 and 3 is not modelled). *)
Definition createPcmBlob (inputData : list Q) : list Z :=
  map encodeSample inputData.

End PcmCodec.

(* ================================================================== *)
(** ** Further notions used by the properties *)

(** The place of a category in the if / else-if chain of the
    classifier: the lower, the earlier it is tried. *)
Definition rank (c : Category) : nat :=
  match c with
  | Grammar => 0
  | Pronunciation => 1
  | NaturalPhrasing => 2
  | General => 3
  end.

(** The category that each pattern of the classifier reports. *)
Definition tagCategory (tag : jsstring) (c : Category) : Prop :=
  (tag = grammarTag /\ c = Grammar) \/
  (tag = pronunciationTag /\ c = Pronunciation) \/
  (tag = naturalTag /\ c = NaturalPhrasing).

(** The elementary changes of state out of which every handler is
    composed.  The index tells whether the conversation reset is among
    them. *)
Inductive Prim : bool -> AppState -> AppState -> Prop :=
| prim_status r st v : Prim r st (setStatus st v)
| prim_landing r st v : Prim r st (setIsLanding st v)
| prim_teardown r st : Prim r st (tornDown st)
| prim_alloc r st : Prim r st (setNextObject st (S (nextObject st)))
| prim_input r st c : Prim r st (setInputAudioContext st (Some c))
| prim_output r st c : Prim r st (setOutputAudioContext st (Some c))
| prim_processor r st c : Prim r st (setScriptProcessor st (Some c))
| prim_awaiting r st n : Prim r st (setAwaitingMedia st n)
| prim_promise r st v : Prim r st (setSessionPromise st v)
| prim_connect r st s :
    Prim r st (setEffects st (effects st ++ [Connect s]))
| prim_close r st s :
    Prim r st (setEffects st (effects st ++ [SessionClose s]))
| prim_input_text r st t :
    Prim r st (finalState (onInputTranscription t st))
| prim_output_text r st t :
    Prim r st (finalState (onOutputTranscription t st))
| prim_turn r st clk : Prim r st (finalState (onTurnComplete clk st))
| prim_interrupt r st :
    Prim r st
      (setNextStartTime
         (setSources
            (setEffects st (effects st ++ map SourceStop (sourcesRef st)))
            []) 0)
| prim_suspend r st m ctx t :
    Prim r st
      (setSuspended (setNextStartTime st (Qmax (nextStartTimeRef st) t))
                    (suspended st ++ [mkSuspended m ctx t]))
| prim_resume r st k :
    Prim r st (setSuspended st (removeNth k (suspended st)))
| prim_schedule r st buffer clock :
    Prim r st
      (setSources
         (setNextStartTime
            (setEffects
               (setNextObject st (S (nextObject st)))
               (effects st ++
                [SourceStart (mkPlayback (nextObject st) (nextStartTimeRef st)
                                         (duration buffer) clock)]))
            (nextStartTimeRef st + duration buffer))
         (setAdd (nextObject st) (sourcesRef st)))
| prim_ended r st s :
    Prim r st (setSources st (setDelete s (sourcesRef st)))
| prim_reset st : Prim true st (finalState (resetConversation st)).

Inductive Steps (r : bool) : AppState -> AppState -> Prop :=
| steps_refl st : Steps r st st
| steps_snoc a b c : Steps r a b -> Prim r b c -> Steps r a c.

(** A computation all of whose runs, thrown or not, are made of
    elementary changes. *)
Definition Sound (r : bool) {A} (c : M A) : Prop :=
  forall st, Steps r st (finalState (c st)).

(** The events of a run that are not the reset button. *)
Definition noReset (e : Event) : bool :=
  match e with
  | ClickReset => false
  | _ => true
  end.

(** A log made of user/model pairs, the two ids of a pair distinct. *)
Inductive Paired : list Message.t -> Prop :=
| paired_nil : Paired []
| paired_snoc l u m :
    Paired l ->
    Message.role u = user ->
    Message.role m = model ->
    Message.id u <> Message.id m ->
    Paired (l ++ [u; m]).



(** A short exchange: two transcript updates, then the end of the turn. *)
Definition chatEvents_messages : list LiveServerMessage :=
  [ mkMessage None (Some (Some (js "Hel"))) None false false;
    mkMessage None (Some (Some (js "lo")))
              (Some (Some (js "[Grammar] Hi."))) false false;
    turnCompleteMessage ].

Definition chatEvents : list Event :=
  map (fun m => SessionMessage m 0 (mkReadings 17 17 17 18))
      chatEvents_messages.

(** A turn ends, the lesson is stopped and started again, and the
    transport reports an error. *)
Definition restartEvents : list Event :=
  [ SessionMessage turnCompleteMessage 0 noReadings;
    ClickStop; ClickStart startOk; SessionError ].

(** The [close()] calls on audio contexts, the [connect] calls and the
    [close()] calls on sessions of a log, in order. *)
Fixpoint closedOf (l : list Effect) : list nat :=
  match l with
  | [] => []
  | CloseContext c :: t => c :: closedOf t
  | _ :: t => closedOf t
  end.

Fixpoint connectsOf (l : list Effect) : list nat :=
  match l with
  | [] => []
  | Connect s :: t => s :: connectsOf t
  | _ :: t => connectsOf t
  end.

Fixpoint sessionClosesOf (l : list Effect) : list nat :=
  match l with
  | [] => []
  | SessionClose s :: t => s :: sessionClosesOf t
  | _ :: t => sessionClosesOf t
  end.

(* ================================================================== *)
(** ** Presentation helpers of [App.tsx] *)

(** Strict equality of two strings. *)
Fixpoint jsEqb (a b : jsstring) : bool :=
  match a, b with
  | [], [] => true
  | x :: a', y :: b' => (x =? y)%N && jsEqb a' b'
  | _, _ => false
  end.

(** The string that stands for a category in a feedback item. *)
Definition categoryName (c : Category) : jsstring :=
  match c with
  | Grammar => js "Grammar"
  | Pronunciation => js "Pronunciation"
  | NaturalPhrasing => js "Natural Phrasing"
  | General => js "General"
  end.

(** Lines 257-264: the [switch] over the category string. *)
Definition getCategoryColor (category : jsstring) : jsstring :=
  if jsEqb category (js "Grammar") then js "bg-orange-400 text-orange-950"
  else if jsEqb category (js "Pronunciation")
       then js "bg-cyan-400 text-cyan-950"
  else if jsEqb category (js "Natural Phrasing")
       then js "bg-emerald-400 text-emerald-950"
  else js "bg-white/20 text-white".





(* ================================================================== *)
(** * Properties *)

Unset Implicit Arguments.

(** ** The matcher on the three patterns *)

Lemma canonicalize_bracket (a : N) :
  (canonicalize a =? canonicalize LBRACKET)%N = (a =? LBRACKET)%N.
Proof.
  unfold canonicalize, LBRACKET. simpl.
  destruct ((97 <=? a) && (a <=? 122))%N eqn:E; [|reflexivity].
  apply andb_true_iff in E. destruct E as [E1 E2].
  apply N.leb_le in E1. apply N.leb_le in E2.
  destruct (N.eqb_spec (a - 32) 91), (N.eqb_spec a 91); try reflexivity; lia.
Qed.

Lemma state_eta (x : MatchState) : mkState (rest x) (capture1 x) = x.
Proof. destruct x; reflexivity. Qed.

Lemma matcher_lit (tag : jsstring) (tail : regex) :
  forall x k,
    matcher (lit tag tail) x k =
    if ciPrefix tag (rest x)
    then matcher tail (mkState (skipn (List.length tag) (rest x)) (capture1 x)) k
    else None.
Proof.
  induction tag as [|c tag IH]; intros x k.
  - simpl. now rewrite state_eta.
  - cbn [lit matcher ciPrefix].
    destruct (rest x) as [|a t] eqn:E; [reflexivity|].
    destruct (canonicalize a =? canonicalize c)%N; [|reflexivity].
    rewrite IH. reflexivity.
Qed.

Lemma lazyStarDot_nil (c : option jsstring) (k : MatchState -> MatchResult) :
  matcher (LazyStar Dot) (mkState [] c) k = k (mkState [] c).
Proof. simpl. destruct (k _); reflexivity. Qed.

Lemma lazyStarDot_cons (a : N) (t : jsstring) (c : option jsstring)
      (k : MatchState -> MatchResult) :
  matcher (LazyStar Dot) (mkState (a :: t) c) k =
  match k (mkState (a :: t) c) with
  | Some z => Some z
  | None =>
      if isLineTerminator a then None
      else matcher (LazyStar Dot) (mkState t c) k
  end.
Proof.
  cbn [matcher rest capture1 List.length].
  destruct (k (mkState (a :: t) c)); [reflexivity|].
  destruct (isLineTerminator a); [reflexivity|].
  assert (H : (List.length t <? S (List.length t))%nat = true)
    by (apply Nat.ltb_lt; lia).
  rewrite H. reflexivity.
Qed.

Lemma matcher_lookahead (r : jsstring) (c : option jsstring)
      (k : MatchState -> MatchResult) :
  matcher (LookAhead (Alt (Char LBRACKET) Eos)) (mkState r c) k =
  match r with
  | [] => k (mkState [] c)
  | a :: _ => if (a =? LBRACKET)%N then k (mkState r c) else None
  end.
Proof.
  destruct r as [|a t]; [reflexivity|].
  cbn [matcher rest capture1].
  rewrite canonicalize_bracket.
  destruct (a =? LBRACKET)%N; reflexivity.
Qed.

(** The lazy star under the group, started anywhere inside the input:
    [pre] is what the group has consumed so far. *)
Lemma lazyStarDot_scan :
  forall (r pre : jsstring) (c : option jsstring),
    matcher (LazyStar Dot) (mkState r c)
      (fun y =>
         matcher (LookAhead (Alt (Char LBRACKET) Eos))
           (mkState (rest y)
              (Some (firstn (List.length (pre ++ r) - List.length (rest y))
                            (pre ++ r))))
           (fun z => Some z)) =
    option_map
      (fun cap => mkState (skipn (List.length cap) r) (Some (pre ++ cap)))
      (scan r).
Proof.
  induction r as [|a t IH]; intros pre c.
  - rewrite lazyStarDot_nil. cbn [rest]. rewrite matcher_lookahead.
    cbn [scan option_map List.length skipn].
    rewrite Nat.sub_0_r, firstn_all. reflexivity.
  - rewrite lazyStarDot_cons. cbn [rest]. rewrite matcher_lookahead.
    assert (Hpre : firstn (List.length (pre ++ a :: t) - List.length (a :: t))
                          (pre ++ a :: t) = pre).
    { rewrite length_app, Nat.add_sub.
      rewrite firstn_app, Nat.sub_diag, firstn_all. cbn [firstn].
      apply app_nil_r. }
    cbn [scan].
    destruct (a =? LBRACKET)%N.
    + rewrite Hpre. cbn [option_map List.length skipn].
      now rewrite app_nil_r.
    + destruct (isLineTerminator a); [reflexivity|].
      replace (pre ++ a :: t) with ((pre ++ [a]) ++ t)
        by (rewrite <- app_assoc; reflexivity).
      rewrite IH.
      destruct (scan t) as [cap|]; [|reflexivity].
      cbn [option_map List.length skipn].
      rewrite <- app_assoc. reflexivity.
Qed.

Lemma matcher_captureTail (s : jsstring) (c : option jsstring) :
  matcher captureTail (mkState s c) (fun z => Some z) =
  option_map (fun cap => mkState (skipn (List.length cap) s) (Some cap))
             (scan s).
Proof.
  unfold captureTail. cbn [matcher rest].
  exact (lazyStarDot_scan s [] c).
Qed.

Lemma exec_firstMatch (tag s : jsstring) :
  option_map capture1 (exec (lit tag captureTail) s) =
  option_map Some (firstMatch tag s).
Proof.
  induction s as [|a t IH].
  - cbn [exec firstMatch]. rewrite matcher_lit. cbn [rest capture1].
    unfold matchAt. destruct (ciPrefix tag []); [|reflexivity].
    rewrite matcher_captureTail.
    destruct (scan _); reflexivity.
  - cbn [exec firstMatch]. rewrite matcher_lit. cbn [rest capture1].
    unfold matchAt. destruct (ciPrefix tag (a :: t)); [|exact IH].
    rewrite matcher_captureTail.
    destruct (scan _); [reflexivity|exact IH].
Qed.

(** The classifier in terms of [firstMatch]: the capture of a match
    always participates, so [trim] is never called on undefined. *)
Lemma classifyFeedback_firstMatch (s : jsstring) :
  classifyFeedback s =
  match firstMatch grammarTag s with
  | Some c => Emit (mkFeedback Grammar (trim c))
  | None =>
      match firstMatch pronunciationTag s with
      | Some c => Emit (mkFeedback Pronunciation (trim c))
      | None =>
          match firstMatch naturalTag s with
          | Some c => Emit (mkFeedback NaturalPhrasing (trim c))
          | None => NoEmit
          end
      end
  end.
Proof.
  unfold classifyFeedback, grammarRe, pronunciationRe, naturalRe, emitFrom.
  pose proof (exec_firstMatch grammarTag s) as Hg.
  pose proof (exec_firstMatch pronunciationTag s) as Hp.
  pose proof (exec_firstMatch naturalTag s) as Hn.
  destruct (exec (lit grammarTag captureTail) s) as [mg|],
           (firstMatch grammarTag s) as [cg|]; try discriminate Hg.
  { cbn in Hg. injection Hg as ->. reflexivity. }
  destruct (exec (lit pronunciationTag captureTail) s) as [mp|],
           (firstMatch pronunciationTag s) as [cp|]; try discriminate Hp.
  { cbn in Hp. injection Hp as ->. reflexivity. }
  destruct (exec (lit naturalTag captureTail) s) as [mn|],
           (firstMatch naturalTag s) as [cn|]; try discriminate Hn.
  { cbn in Hn. injection Hn as ->. reflexivity. }
  reflexivity.
Qed.

Lemma classifyFeedback_no_throw (s : jsstring) : classifyFeedback s <> Throws.
Proof.
  rewrite classifyFeedback_firstMatch.
  destruct (firstMatch grammarTag s); [discriminate|].
  destruct (firstMatch pronunciationTag s); [discriminate|].
  destruct (firstMatch naturalTag s); discriminate.
Qed.

(** ** Transcripts without line terminators *)

Lemma scan_noLineTerminator (s : jsstring) :
  noLineTerminator s = true -> scan s = Some (upToBracket s).
Proof.
  induction s as [|a t IH]; intros H; [reflexivity|].
  cbn [noLineTerminator forallb] in H.
  apply andb_true_iff in H. destruct H as [Ha Ht].
  cbn [scan upToBracket].
  destruct (a =? LBRACKET)%N; [reflexivity|].
  apply negb_true_iff in Ha. rewrite Ha.
  fold (noLineTerminator t) in Ht. rewrite (IH Ht). reflexivity.
Qed.

Lemma noLineTerminator_skipn (n : nat) :
  forall s, noLineTerminator s = true -> noLineTerminator (skipn n s) = true.
Proof.
  induction n as [|n IH]; intros s H; [exact H|].
  destruct s as [|a t]; [reflexivity|].
  cbn [skipn]. apply IH.
  cbn [noLineTerminator forallb] in H.
  apply andb_true_iff in H. exact (proj2 H).
Qed.

Lemma firstMatch_noLineTerminator (tag : jsstring) :
  forall s,
    noLineTerminator s = true ->
    firstMatch tag s =
    option_map (fun i => upToBracket (skipn (i + List.length tag) s))
               (indexOfTag tag s).
Proof.
  induction s as [|a t IH]; intros H.
  - cbn [firstMatch indexOfTag]. unfold matchAt.
    destruct (ciPrefix tag []); [|reflexivity].
    rewrite scan_noLineTerminator by (now apply noLineTerminator_skipn).
    reflexivity.
  - cbn [firstMatch indexOfTag]. unfold matchAt.
    destruct (ciPrefix tag (a :: t)).
    + rewrite scan_noLineTerminator by (now apply noLineTerminator_skipn).
      reflexivity.
    + rewrite IH.
      * destruct (indexOfTag tag t); reflexivity.
      * cbn [noLineTerminator forallb] in H.
        apply andb_true_iff in H. exact (proj2 H).
Qed.

Lemma feedbackAfter_firstMatch (tag s : jsstring) :
  noLineTerminator s = true ->
  feedbackAfter tag s = option_map trim (firstMatch tag s).
Proof.
  intros H. unfold feedbackAfter.
  rewrite (firstMatch_noLineTerminator tag s H).
  destruct (indexOfTag tag s); reflexivity.
Qed.

(** ** Transcripts without a marker *)

Lemma firstMatch_includesTag (tag : jsstring) :
  forall s c, firstMatch tag s = Some c -> includesTag tag s = true.
Proof.
  unfold includesTag.
  induction s as [|a t IH]; intros c H; cbn [firstMatch indexOfTag] in *;
    unfold matchAt in H.
  - destruct (ciPrefix tag []); [reflexivity|discriminate].
  - destruct (ciPrefix tag (a :: t)); [reflexivity|].
    specialize (IH c H). destruct (indexOfTag tag t); [reflexivity|discriminate].
Qed.

Lemma firstMatch_absent (tag s : jsstring) :
  includesTag tag s = false -> firstMatch tag s = None.
Proof.
  intros H. destruct (firstMatch tag s) as [c|] eqn:E; [|reflexivity].
  apply firstMatch_includesTag in E. congruence.
Qed.

Lemma classifyFeedback_absent (s : jsstring) :
  includesTag grammarTag s = false ->
  includesTag pronunciationTag s = false ->
  includesTag naturalTag s = false ->
  classifyFeedback s = NoEmit.
Proof.
  intros Hg Hp Hn. rewrite classifyFeedback_firstMatch.
  now rewrite !firstMatch_absent.
Qed.

(** [includesTag] says what it should: some substring of [s] has the
    letters of [tag]. *)
Lemma ciPrefix_split (tag : jsstring) :
  forall s, ciPrefix tag s = true <->
            exists v post, s = v ++ post /\ sameLetters v tag = true.
Proof.
  induction tag as [|c tag IH]; intros s.
  - split; [intros _; exists [], s; split; reflexivity|reflexivity].
  - destruct s as [|a t]; cbn [ciPrefix].
    + split; [discriminate|].
      intros (v & post & E & Hv). destruct v; [discriminate Hv|discriminate E].
    + rewrite andb_true_iff, IH. split.
      * intros (Ha & v & post & -> & Hv).
        exists (a :: v), post. split; [reflexivity|].
        cbn [sameLetters]. now rewrite Ha, Hv.
      * intros (v & post & E & Hv).
        destruct v as [|x v]; [discriminate Hv|].
        injection E as -> ->. cbn [sameLetters] in Hv.
        apply andb_true_iff in Hv. destruct Hv as [Hx Hv].
        split; [exact Hx|]. now exists v, post.
Qed.

Lemma includesTag_spec (tag : jsstring) :
  forall s, includesTag tag s = true <->
            exists pre v post, s = pre ++ v ++ post /\ sameLetters v tag = true.
Proof.
  unfold includesTag.
  induction s as [|a t IH]; cbn [indexOfTag].
  - destruct (ciPrefix tag []) eqn:E.
    + split; [intros _|reflexivity].
      apply ciPrefix_split in E. destruct E as (v & post & E & Hv).
      now exists [], v, post.
    + split; [discriminate|].
      intros (pre & v & post & E' & Hv).
      destruct pre; [|discriminate E'].
      assert (ciPrefix tag [] = true)
        by (apply ciPrefix_split; exists v, post; split; [exact E'|exact Hv]).
      congruence.
  - destruct (ciPrefix tag (a :: t)) eqn:E.
    + split; [intros _|reflexivity].
      apply ciPrefix_split in E. destruct E as (v & post & E & Hv).
      now exists [], v, post.
    + assert (Hmap : isSome (option_map S (indexOfTag tag t))
                     = isSome (indexOfTag tag t))
        by (destruct (indexOfTag tag t); reflexivity).
      rewrite Hmap, IH. split.
      * intros (pre & v & post & -> & Hv). now exists (a :: pre), v, post.
      * intros (pre & v & post & E' & Hv).
        destruct pre as [|x pre].
        { assert (ciPrefix tag (a :: t) = true)
            by (apply ciPrefix_split; exists v, post;
                split; [exact E'|exact Hv]).
          congruence. }
        injection E' as -> ->. now exists pre, v, post.
Qed.

(** ** Letter case of the markers *)

Lemma isTag_shape (tag : jsstring) : isTag tag -> tagShape tag.
Proof.
  intros [-> | [-> | ->]]; eexists; (split; [reflexivity|]);
    vm_compute; reflexivity.
Qed.

(** Two different markers part at their second character. *)
Lemma isTag_apart (K T : jsstring) :
  isTag K -> isTag T ->
  K = T \/ forall post, ciPrefix K (T ++ post) = false.
Proof.
  intros [-> | [-> | ->]] [-> | [-> | ->]];
    try (left; reflexivity); right; intros post; reflexivity.
Qed.

Lemma sameLetters_length :
  forall a b, sameLetters a b = true -> List.length a = List.length b.
Proof.
  induction a as [|x a IH]; destruct b as [|y b]; cbn [sameLetters];
    try discriminate; [reflexivity|].
  intros H. apply andb_true_iff in H. cbn [List.length].
  f_equal. apply IH. exact (proj2 H).
Qed.

Lemma sameLetters_refl (s : jsstring) : sameLetters s s = true.
Proof.
  induction s as [|x s IH]; [reflexivity|].
  cbn [sameLetters]. now rewrite N.eqb_refl, IH.
Qed.





(** A marker cannot be matched across an opening bracket. *)
Lemma ciPrefix_before_bracket :
  forall body x y,
    bracketFree body = true ->
    ciPrefix body (x ++ LBRACKET :: y) = true ->
    (List.length body <= List.length x)%nat.
Proof.
  induction body as [|b body IH]; intros x y Hb H; [cbn; lia|].
  cbn [bracketFree forallb] in Hb.
  apply andb_true_iff in Hb. destruct Hb as [Hb0 Hb].
  destruct x as [|c x]; cbn [app ciPrefix] in H;
    apply andb_true_iff in H; destruct H as [H0 H].
  - exfalso. rewrite N.eqb_sym, canonicalize_bracket in H0.
    rewrite H0 in Hb0. discriminate.
  - cbn [List.length]. apply le_n_S. exact (IH x y Hb H).
Qed.

Lemma scan_cut :
  forall x y y', scan (x ++ LBRACKET :: y) = scan (x ++ LBRACKET :: y').
Proof.
  induction x as [|a x IH]; intros y y'; [reflexivity|].
  cbn [app scan]. destruct (a =? LBRACKET)%N; [reflexivity|].
  destruct (isLineTerminator a); [reflexivity|].
  now rewrite (IH y y').
Qed.

Lemma firstMatch_skip (tag : jsstring) :
  tagShape tag ->
  forall t w, bracketFree t = true -> firstMatch tag (t ++ w) = firstMatch tag w.
Proof.
  intros (body & -> & _).
  induction t as [|a t IH]; intros w Hf; [reflexivity|].
  cbn [bracketFree forallb] in Hf.
  apply andb_true_iff in Hf. destruct Hf as [Ha Hf].
  cbn [app firstMatch]. unfold matchAt. cbn [ciPrefix].
  rewrite canonicalize_bracket.
  apply negb_true_iff in Ha. rewrite Ha. cbn [andb].
  exact (IH w Hf).
Qed.




(** ** Teardown and interruption *)

Section HandlerFacts.

Variable stopThrows : nat -> bool.

Lemma forEach_stop :
  forall l st,
    forEach l (fun s => tryCatch (sourceStop stopThrows s) (ret tt)) st =
    Ok tt (setEffects st (effects st ++ map SourceStop l)).
Proof.
  induction l as [|s l IH]; intros st.
  - cbn. rewrite app_nil_r. destruct st; reflexivity.
  - cbn [forEach]. unfold bind at 1.
    assert (H1 : tryCatch (sourceStop stopThrows s) (ret tt) st =
                 Ok tt (setEffects st (effects st ++ [SourceStop s]))).
    { unfold tryCatch, sourceStop, bind, perform, modify, throw, ret.
      destruct (stopThrows s); reflexivity. }
    rewrite H1, IH. unfold setEffects. cbn.
    rewrite <- app_assoc. reflexivity.
Qed.

Lemma onInterrupted_run (st : AppState) :
  onInterrupted stopThrows st =
  Ok tt (setNextStartTime
           (setSources
              (setEffects st (effects st ++ map SourceStop (sourcesRef st)))
              []) 0).
Proof.
  unfold onInterrupted. unfold bind at 1. unfold read at 1.
  unfold bind at 1. rewrite forEach_stop. reflexivity.
Qed.

Lemma cleanupAudio_run (st : AppState) :
  cleanupAudio stopThrows st = Ok tt (tornDown st).
Proof.
  unfold cleanupAudio, tornDown, teardownEffects.
  destruct st as [s0 ms tr lf il ic oc sp ns src spr cu cm ef no su aw].
  destruct sp as [n|], ic as [i|], oc as [o|];
    cbn -[forEach]; unfold bind at 1; rewrite forEach_stop; cbn;
    rewrite <- ?app_assoc; reflexivity.
Qed.

End HandlerFacts.

(** ** The blocks of [onmessage] *)

Lemma bind_Ok {A B} (c : M A) (f : A -> M B) (st st' : AppState) (a : A) :
  c st = Ok a st' -> bind c f st = f a st'.
Proof. intros H. unfold bind. now rewrite H. Qed.

Lemma onInputTranscription_returns (t : option jsstring) (st : AppState) :
  onInputTranscription t st = Ok tt (finalState (onInputTranscription t st)).
Proof. reflexivity. Qed.

Lemma onOutputTranscription_returns (t : option jsstring) (st : AppState) :
  onOutputTranscription t st = Ok tt (finalState (onOutputTranscription t st)).
Proof.
  unfold onOutputTranscription, bind, modify, read. cbn.
  pose proof (classifyFeedback_no_throw (currentModelTextRef st ++ textOf t)).
  destruct (classifyFeedback (currentModelTextRef st ++ textOf t));
    [reflexivity|reflexivity|congruence].
Qed.

Lemma onTurnComplete_returns (clk : Readings) (st : AppState) :
  onTurnComplete clk st = Ok tt (finalState (onTurnComplete clk st)).
Proof.
  unfold onTurnComplete, bind, modify, read, when. cbn.
  destruct (truthy (currentUserTextRef st) || truthy (currentModelTextRef st));
    reflexivity.
Qed.

Lemma onmessageRest_run (stopThrows : nat -> bool)
      (message : LiveServerMessage) (clk : Readings) (st : AppState) :
  onmessageRest stopThrows message clk st =
  Ok tt (if interrupted message
         then finalState (onInterrupted stopThrows (transcriptPhase message clk st))
         else transcriptPhase message clk st).
Proof.
  unfold onmessageRest, transcriptPhase.
  destruct message as [ad it ot tc ir]. cbn [inputTranscription
    outputTranscription turnComplete interrupted].
  set (st1 := match it with
              | Some t => finalState (onInputTranscription t st)
              | None => st end).
  assert (H1 : match it with
               | Some t => onInputTranscription t
               | None => ret tt end st = Ok tt st1)
    by (destruct it; reflexivity).
  rewrite (bind_Ok _ _ _ _ _ H1).
  set (st2 := match ot with
              | Some t => finalState (onOutputTranscription t st1)
              | None => st1 end).
  assert (H2 : match ot with
               | Some t => onOutputTranscription t
               | None => ret tt end st1 = Ok tt st2)
    by (destruct ot; [apply onOutputTranscription_returns|reflexivity]).
  rewrite (bind_Ok _ _ _ _ _ H2).
  set (st3 := if tc then finalState (onTurnComplete clk st2) else st2).
  assert (H3 : when tc (onTurnComplete clk) st2 = Ok tt st3)
    by (destruct tc; [apply onTurnComplete_returns|reflexivity]).
  rewrite (bind_Ok _ _ _ _ _ H3).
  destruct ir; cbn [when]; [|reflexivity].
  rewrite onInterrupted_run. reflexivity.
Qed.

(** The transcript blocks leave the devices, the schedule and the
    session alone. *)
Lemma transcriptPhase_frame (message : LiveServerMessage) (clk : Readings)
      (st : AppState) :
  let st' := transcriptPhase message clk st in
  effects st' = effects st /\ nextStartTimeRef st' = nextStartTimeRef st /\
  sourcesRef st' = sourcesRef st /\ suspended st' = suspended st /\
  isLanding st' = isLanding st /\ status st' = status st.
Proof.
  unfold transcriptPhase.
  destruct message as [ad it ot tc ir]. cbn [inputTranscription
    outputTranscription turnComplete].
  destruct it as [t1|], ot as [t2|], tc;
    unfold onTurnComplete, onOutputTranscription, onInputTranscription,
      bind, modify, read, when; cbn;
    repeat match goal with
           | |- context [classifyFeedback ?x] => destruct (classifyFeedback x)
           | |- context [truthy ?x || truthy ?y] =>
               destruct (truthy x || truthy y)
           end; cbn; repeat split; reflexivity.
Qed.

(** ** Projections of the log *)

Lemma stoppedOf_app (a b : list Effect) :
  stoppedOf (a ++ b) = stoppedOf a ++ stoppedOf b.
Proof.
  induction a as [|e a IH]; [reflexivity|].
  destruct e; cbn [app stoppedOf]; rewrite IH; reflexivity.
Qed.

Lemma stoppedOf_stops (l : list nat) : stoppedOf (map SourceStop l) = l.
Proof.
  induction l as [|x l IH]; [reflexivity|]. cbn. now rewrite IH.
Qed.

Lemma scheduledOf_app (a b : list Effect) :
  scheduledOf (a ++ b) = scheduledOf a ++ scheduledOf b.
Proof.
  induction a as [|e a IH]; [reflexivity|].
  destruct e; cbn [app scheduledOf]; rewrite IH; reflexivity.
Qed.

Lemma scheduledOf_stops (l : list nat) : scheduledOf (map SourceStop l) = [].
Proof.
  induction l as [|x l IH]; [reflexivity|]. exact IH.
Qed.

(* ================================================================== *)
(** * The claims *)

(** ** The feedback classifier *)

(** C1 (as amended).  The classifier selects the category by the fixed
    priority Grammar, Pronunciation, Natural Phrasing, whatever the
    positions of the markers in the text; the text it emits runs from
    just after the first occurrence of the chosen marker to the next
    opening bracket [[] of any kind, or to the end of the string, and is
    trimmed.  This holds of every transcript that has no line
    terminator.  The transcript of section 8 yields Grammar with the
    text "Past tense needed.". *)
Theorem classifier_priority_capture :
  classifyFeedback twoTagExample
    = Emit (mkFeedback Grammar (js "Past tense needed.")) /\
  forall s : jsstring,
    noLineTerminator s = true ->
    classifyFeedback s = classifyByPriority s.
Proof.
  split; [vm_compute; reflexivity|].
  intros s H.
  rewrite classifyFeedback_firstMatch. unfold classifyByPriority.
  rewrite !feedbackAfter_firstMatch by exact H.
  destruct (firstMatch grammarTag s); [reflexivity|].
  destruct (firstMatch pronunciationTag s); [reflexivity|].
  destruct (firstMatch naturalTag s); reflexivity.
Qed.

Lemma classifier_priority_capture_witness :
  noLineTerminator twoTagExample = true /\
  classifyFeedback twoTagExample = classifyByPriority twoTagExample.
Proof.
  split; [reflexivity|].
  apply (proj2 classifier_priority_capture twoTagExample). reflexivity.
Defined.

(** C1 as it was stated fails: the capture ends at a bracket that opens
    no marker, where the statement lets it run to the next marker or to
    the end of the string. *)
Lemma classifier_stops_at_any_bracket :
  classifyFeedback bracketExample = Emit (mkFeedback Grammar (js "Use")) /\
  classifyToNextTag bracketExample
    = Emit (mkFeedback Grammar (js "Use [the] article.")) /\
  classifyFeedback bracketExample <> classifyToNextTag bracketExample.
Proof.
  split; [vm_compute; reflexivity|].
  split; [vm_compute; reflexivity|].
  vm_compute. discriminate.
Qed.

(** C8.  When the accumulated model transcript contains none of the
    three markers (in any letter case, as the patterns match them), the
    update raises nothing, the classifier emits nothing, and the latest
    feedback item stays as it was. *)
Theorem no_marker_keeps_feedback :
  forall (stopThrows : nat -> bool) (message : LiveServerMessage)
         (clk : Readings) (st : AppState) (t : option jsstring),
    outputTranscription message = Some t ->
    includesTag grammarTag (currentModelTextRef st ++ textOf t) = false ->
    includesTag pronunciationTag (currentModelTextRef st ++ textOf t) = false ->
    includesTag naturalTag (currentModelTextRef st ++ textOf t) = false ->
    classifyFeedback (currentModelTextRef st ++ textOf t) = NoEmit /\
    exists st',
      onmessageRest stopThrows message clk st = Ok tt st' /\
      latestFeedback st' = latestFeedback st.
Proof.
  intros stopThrows message clk st t Hot Hg Hp Hn.
  pose proof (classifyFeedback_absent _ Hg Hp Hn) as Hc.
  split; [exact Hc|].
  rewrite onmessageRest_run. eexists. split; [reflexivity|].
  assert (Ht : latestFeedback (transcriptPhase message clk st)
               = latestFeedback st).
  { unfold transcriptPhase. rewrite Hot.
    destruct (inputTranscription message) as [ti|], (turnComplete message);
      unfold onTurnComplete, onOutputTranscription, onInputTranscription,
        bind, modify, read, when; cbn; rewrite Hc; cbn;
      repeat match goal with
             | |- context [truthy ?x || truthy ?y] =>
                 destruct (truthy x || truthy y)
             end; reflexivity. }
  destruct (interrupted message); [|exact Ht].
  rewrite onInterrupted_run. exact Ht.
Qed.

Lemma no_marker_keeps_feedback_witness :
  classifyFeedback (currentModelTextRef chatState ++ textOf (Some (js " it again.")))
    = NoEmit /\
  exists st',
    onmessageRest quietStop chatMessage noReadings chatState = Ok tt st' /\
    latestFeedback st' = latestFeedback chatState.
Proof.
  apply (no_marker_keeps_feedback quietStop chatMessage noReadings chatState
           (Some (js " it again."))); reflexivity.
Defined.



(** ** Turn boundary *)



(** ** Interruption *)



(** C9.  The interruption block changes the set of tracked sources and
    the scheduling clock (and calls [stop()] on the sources); the two
    transcript accumulators, the published transcription, the
    conversation log, the latest feedback item and the session status
    are what they were, and so are the view and the other refs. *)
Theorem interruption_frame :
  forall (stopThrows : nat -> bool) (st : AppState),
    exists st',
      onInterrupted stopThrows st = Ok tt st' /\
      currentUserTextRef st' = currentUserTextRef st /\
      currentModelTextRef st' = currentModelTextRef st /\
      transcription st' = transcription st /\
      messages st' = messages st /\
      latestFeedback st' = latestFeedback st /\
      status st' = status st /\
      isLanding st' = isLanding st /\
      inputAudioContextRef st' = inputAudioContextRef st /\
      outputAudioContextRef st' = outputAudioContextRef st /\
      scriptProcessorRef st' = scriptProcessorRef st /\
      sessionPromiseRef st' = sessionPromiseRef st.
Proof.
  intros stopThrows st. rewrite onInterrupted_run.
  eexists. split; [reflexivity|]. cbn. repeat split; reflexivity.
Qed.

(** ** Teardown *)

Lemma stopSession_run (stopThrows : nat -> bool) (st : AppState) :
  stopSession stopThrows st =
  Ok tt (setIsLanding
           (setStatus
              (tornDown
                 match sessionPromiseRef st with
                 | Some s =>
                     setSessionPromise
                       (setEffects st (effects st ++ [SessionClose s])) None
                 | None => st
                 end) IDLE) true).
Proof.
  unfold stopSession.
  destruct (sessionPromiseRef st) as [s|] eqn:E;
    unfold bind at 1, read at 1; rewrite E; cbn [isSome when].
  - unfold bind at 1, bind at 1, deref at 1. rewrite E.
    unfold bind at 1, perform at 1, modify at 1.
    unfold bind at 1, modify at 1.
    unfold bind at 1. rewrite cleanupAudio_run. reflexivity.
  - unfold bind at 1, ret at 1.
    unfold bind at 1. rewrite cleanupAudio_run. reflexivity.
Qed.

(** C6.  [stopSession] called twice in succession returns normally both
    times and leaves the status IDLE; and [cleanupAudio] returns
    normally from every state of the refs (any of them null or set, any
    sources tracked) and whatever the [stop()] calls do. *)
Theorem stop_twice_idle :
  forall (stopThrows : nat -> bool) (st : AppState),
    (exists st1 st2,
        stopSession stopThrows st = Ok tt st1 /\
        stopSession stopThrows st1 = Ok tt st2 /\
        status st1 = IDLE /\ status st2 = IDLE) /\
    (exists st', cleanupAudio stopThrows st = Ok tt st').
Proof.
  intros stopThrows st. split.
  - eexists. eexists. split; [apply stopSession_run|].
    split; [apply stopSession_run|]. split; reflexivity.
  - eexists. apply cleanupAudio_run.
Qed.

(** ** Events *)

Section EventFacts.

Variable stopThrows : nat -> bool.

Lemma startSessionCatch_run (st : AppState) :
  startSessionCatch stopThrows st = Ok tt (tornDown (setStatus st ERROR)).
Proof.
  unfold startSessionCatch. unfold bind at 1, modify at 1.
  apply cleanupAudio_run.
Qed.

Lemma fire_rest (message : LiveServerMessage) (clk : Readings)
      (st : AppState) :
  finalState (onmessageRest stopThrows message clk st) =
  if interrupted message
  then setNextStartTime
         (setSources
            (setEffects (transcriptPhase message clk st)
               (effects (transcriptPhase message clk st)
                ++ map SourceStop (sourcesRef (transcriptPhase message clk st))))
            []) 0
  else transcriptPhase message clk st.
Proof.
  rewrite onmessageRest_run. destruct (interrupted message); [|reflexivity].
  rewrite onInterrupted_run. reflexivity.
Qed.

Lemma fire_message (message : LiveServerMessage) (t : Q) (clk : Readings)
      (st : AppState) :
  fire stopThrows (SessionMessage message t clk) st =
  match audioData message, outputAudioContextRef st with
  | Some d, Some ctx =>
      if truthy d
      then setSuspended
             (setNextStartTime st (Qmax (nextStartTimeRef st) t))
             (suspended st ++ [mkSuspended message ctx t])
      else finalState (onmessageRest stopThrows message clk st)
  | _, _ => finalState (onmessageRest stopThrows message clk st)
  end.
Proof.
  unfold fire, handler, onmessageStart.
  unfold bind at 1, bind at 1, read at 1.
  destruct (audioData message) as [d|],
           (outputAudioContextRef st) as [ctx|]; try reflexivity.
  destruct (truthy d); reflexivity.
Qed.

(** The state in which the rest of a resumed [onmessage] runs: the
    continuation is taken off the list and its buffer is scheduled. *)
Lemma fire_decoded (k : nat) (buffer : AudioBuffer) (clk : Readings)
      (st : AppState) (p : Suspended) :
  nth_error (suspended st) k = Some p ->
  fire stopThrows (DecodeDone k buffer clk) st =
  finalState
    (onmessageRest stopThrows (pendingMessage p) clk
       (setSources
          (setNextStartTime
             (setEffects
                (setNextObject
                   (setSuspended st (removeNth k (suspended st)))
                   (S (nextObject st)))
                (effects st ++
                 [SourceStart (mkPlayback (nextObject st)
                                          (nextStartTimeRef st)
                                          (duration buffer)
                                          (pendingClock p))]))
             (nextStartTimeRef st + duration buffer))
          (setAdd (nextObject st) (sourcesRef st)))).
Proof.
  intros Hp. unfold fire, handler.
  unfold bind at 1, read at 1. rewrite Hp.
  unfold bind at 1, modify at 1.
  unfold onmessageSchedule.
  unfold bind at 1, bind at 1. reflexivity.
Qed.

(** Only the stop button leads back to the landing view. *)
Lemma isLanding_stays_false (e : Event) (st : AppState) :
  e <> ClickStop ->
  isLanding st = false ->
  isLanding (fire stopThrows e st) = false.
Proof.
  intros He Hl. destruct e as [env| | |g| |m t clk|k b clk|k|s| |];
    try congruence.
  - unfold fire, handler, startSession, tryCatch.
    destruct env as [[] [] []]; cbn -[startSessionCatch];
      rewrite ?startSessionCatch_run; reflexivity.
  - unfold fire, handler, resetConversation, bind, modify. exact Hl.
  - unfold fire, handler, startSessionResume, tryCatch.
    destruct g; cbn -[startSessionCatch];
      rewrite ?startSessionCatch_run; exact Hl.
  - destruct st as [s0 ms tr lf il ic oc sp ns src spr cu cm ef no su aw].
    unfold fire, handler, onopen, bind, modify, deref, fresh, ret.
    destruct ic; exact Hl.
  - rewrite fire_message.
    assert (Hr : isLanding (finalState (onmessageRest stopThrows m clk st))
                 = false).
    { rewrite fire_rest.
      destruct (transcriptPhase_frame m clk st) as (_ & _ & _ & _ & Hi & _).
      destruct (interrupted m); cbn; rewrite Hi; exact Hl. }
    destruct (audioData m) as [d|], (outputAudioContextRef st) as [c|];
      try exact Hr.
    destruct (truthy d); [exact Hl|exact Hr].
  - destruct (nth_error (suspended st) k) as [p|] eqn:Hp.
    + rewrite (fire_decoded k b clk st p Hp), fire_rest.
      match goal with
      | |- context [transcriptPhase ?mm ?cc ?ss] =>
          destruct (transcriptPhase_frame mm cc ss)
            as (_ & _ & _ & _ & Hi & _)
      end.
      destruct (interrupted (pendingMessage p)); cbn; rewrite Hi; exact Hl.
    + unfold fire, handler. unfold bind at 1, read at 1. rewrite Hp.
      exact Hl.
  - exact Hl.
  - exact Hl.
  - unfold fire, handler, onerror. unfold bind at 1, modify at 1.
    rewrite cleanupAudio_run. exact Hl.
  - unfold fire, handler, onclose. unfold bind at 1, modify at 1.
    rewrite cleanupAudio_run. exact Hl.
Qed.

Lemma run_app (es1 es2 : list Event) :
  forall st,
    run stopThrows (es1 ++ es2) st =
    match run stopThrows es1 st with
    | Some st' => run stopThrows es2 st'
    | None => None
    end.
Proof.
  induction es1 as [|e es1 IH]; intros st; [reflexivity|].
  cbn [app run]. destruct (enabled e st); [apply IH|reflexivity].
Qed.

Lemma run_stays_in_lesson (es : list Event) :
  forall st st',
    ~ In ClickStop es ->
    isLanding st = false ->
    run stopThrows es st = Some st' ->
    isLanding st' = false.
Proof.
  induction es as [|e es IH]; intros st st' Hn Hl Hr.
  - cbn in Hr. now injection Hr as <-.
  - cbn [run] in Hr. destruct (enabled e st); [|discriminate].
    apply (IH (fire stopThrows e st)); [|apply isLanding_stays_false|exact Hr].
    + intros Hin. apply Hn. now right.
    + intros ->. apply Hn. now left.
    + exact Hl.
Qed.

Lemma startSession_leaves_landing (env : StartEnv) (st : AppState) :
  isLanding (fire stopThrows (ClickStart env) st) = false.
Proof.
  unfold fire, handler, startSession, tryCatch.
  destruct env as [[] [] []]; cbn -[startSessionCatch];
    rewrite ?startSessionCatch_run; reflexivity.
Qed.

End EventFacts.

(** ** Session start *)

(** C2 (as amended).  [startSession] does not look at the session
    status: called in any state, the Active one included, it sets the
    status to CONNECTING and suspends at the microphone request of a new
    connection sequence.  What gates it is the view: the start control
    is enabled exactly on the landing view, starting leaves the landing
    view, and [stopSession], which sets the status IDLE, is the only way
    back to it; so no run of the component has two starts without a stop
    between them. *)
Theorem start_gated_by_landing_view :
  forall stopThrows : nat -> bool,
    (forall st,
        status (fire stopThrows (ClickStart startOk) st) = CONNECTING /\
        awaitingMedia (fire stopThrows (ClickStart startOk) st)
        = S (awaitingMedia st)) /\
    (forall env st, enabled (ClickStart env) st = isLanding st) /\
    (forall st,
        status (fire stopThrows ClickStop st) = IDLE /\
        isLanding (fire stopThrows ClickStop st) = true) /\
    (forall env env' es st,
        ~ In ClickStop es ->
        run stopThrows (ClickStart env :: es ++ [ClickStart env']) st = None).
Proof.
  intros stopThrows. split; [|split; [|split]].
  - intros st. split; reflexivity.
  - reflexivity.
  - intros st. unfold fire, handler. rewrite stopSession_run.
    split; reflexivity.
  - intros env env' es st Hn.
    cbn [run]. destruct (enabled (ClickStart env) st); [|reflexivity].
    rewrite run_app.
    destruct (run stopThrows es (fire stopThrows (ClickStart env) st))
      as [st'|] eqn:E; [|reflexivity].
    apply run_stays_in_lesson in E;
      [|exact Hn|apply startSession_leaves_landing].
    cbn [run enabled]. now rewrite E.
Qed.

Lemma start_gated_by_landing_view_witness :
  run quietStop
      (ClickStart startOk :: [MediaSettled true; SessionOpen]
                          ++ [ClickStart startOk])
      initialState = None.
Proof.
  apply (proj2 (proj2 (proj2 (start_gated_by_landing_view quietStop)))).
  intros [H|[H|[]]]; discriminate H.
Defined.

(** C2 as it was stated fails: after [lateOpenTrace] the status is
    ACTIVE while the landing view, and with it the start control, is
    shown; the start is accepted, the status becomes CONNECTING and a
    new connection sequence waits for the microphone. *)
Lemma start_while_active_reconnects :
  option_map status (run quietStop lateOpenTrace initialState)
    = Some ACTIVE /\
  option_map status
    (run quietStop (lateOpenTrace ++ [ClickStart startOk]) initialState)
    = Some CONNECTING /\
  option_map awaitingMedia
    (run quietStop (lateOpenTrace ++ [ClickStart startOk]) initialState)
    = Some 1%nat.
Proof. repeat split; vm_compute; reflexivity. Qed.

(** ** Playback scheduling *)

Lemma duration_nonneg (b : AudioBuffer) : 0 <= duration b.
Proof. unfold duration, Qle. cbn. lia. Qed.



Section ScheduleFacts.

Variable stopThrows : nat -> bool.




End ScheduleFacts.



(** ** PCM encoding *)

Lemma mathRound_nearest (q : Q) :
  Qabs (inject_Z (mathRound q) - q) <= 1 # 2.
Proof.
  unfold mathRound. apply Qabs_Qle_condition.
  pose proof (Qfloor_le (q + (1 # 2))) as Hlo.
  pose proof (Qlt_floor (q + (1 # 2))) as Hhi.
  rewrite inject_Z_plus in Hhi.
  change (inject_Z 1) with 1 in Hhi.
  split; lra.
Qed.

Lemma mathRound_monotone (p q : Q) :
  p <= q -> (mathRound p <= mathRound q)%Z.
Proof.
  intros H. unfold mathRound. apply Qfloor_resp_le. lra.
Qed.

Section PcmFacts.

Variable roundNearest : Q -> Z.
Hypothesis round_nearest :
  forall q, Qabs (inject_Z (roundNearest q) - q) <= 1 # 2.
Hypothesis round_monotone :
  forall p q, p <= q -> (roundNearest p <= roundNearest q)%Z.

Lemma round_integer (z : Z) : roundNearest (inject_Z z) = z.
Proof.
  pose proof (round_nearest (inject_Z z)) as H.
  apply Qabs_Qle_condition in H. destruct H as [H1 H2].
  unfold Qle, Qminus, Qplus, Qopp, inject_Z in H1, H2 |- *.
  cbn in H1, H2. lia.
Qed.

Lemma round_clamp (q : Q) :
  roundNearest (clampRange q) = clampInt16 (roundNearest q).
Proof.
  unfold clampRange, clampInt16.
  destruct (Qle_bool q (inject_Z INT16_MIN)) eqn:E1.
  - apply Qle_bool_iff in E1. apply round_monotone in E1.
    rewrite round_integer in *. unfold INT16_MIN, INT16_MAX in *. lia.
  - destruct (Qle_bool (inject_Z INT16_MAX) q) eqn:E2.
    + apply Qle_bool_iff in E2. apply round_monotone in E2.
      rewrite round_integer in *. unfold INT16_MIN, INT16_MAX in *. lia.
    + assert (H1 : inject_Z INT16_MIN <= q).
      { apply Qlt_le_weak, Qnot_le_lt. intros H.
        apply Qle_bool_iff in H. congruence. }
      assert (H2 : q <= inject_Z INT16_MAX).
      { apply Qlt_le_weak, Qnot_le_lt. intros H.
        apply Qle_bool_iff in H. congruence. }
      apply round_monotone in H1. apply round_monotone in H2.
      rewrite round_integer in *. unfold INT16_MIN, INT16_MAX in *. lia.
Qed.

Lemma clampInt16_range (z : Z) :
  (INT16_MIN <= clampInt16 z <= INT16_MAX)%Z.
Proof. unfold clampInt16, INT16_MIN, INT16_MAX. lia. Qed.

Lemma wrap16_id (z : Z) :
  (INT16_MIN <= z <= INT16_MAX)%Z -> wrap16 z = z.
Proof.
  unfold wrap16, INT16_MIN, INT16_MAX. intros H.
  rewrite Z.mod_small by lia. lia.
Qed.

End PcmFacts.

(** C7 (as amended).  The encoded value of every sample is its product
    with 0x7FFF rounded to nearest and clamped to [-0x8000, 0x7FFF];
    storing it in 16 bits does not change it, so nothing wraps.  For a
    sample of 1.0 or more it is 0x7FFF.  For a sample of -1.0 or less it
    is -0x7FFF or -0x8000, and it is -0x8000 as soon as the product is
    -0x8000 or less. *)
Theorem encode_clamps_not_wraps :
  forall roundNearest : Q -> Z,
    (forall q, Qabs (inject_Z (roundNearest q) - q) <= 1 # 2) ->
    (forall p q, p <= q -> (roundNearest p <= roundNearest q)%Z) ->
    forall s : Q,
      encodeSample roundNearest s
        = clampInt16 (roundNearest (s * inject_Z 32767)) /\
      wrap16 (encodeSample roundNearest s) = encodeSample roundNearest s /\
      (1 <= s -> encodeSample roundNearest s = INT16_MAX) /\
      (s <= -1 ->
       (INT16_MIN <= encodeSample roundNearest s <= - INT16_MAX)%Z) /\
      (s * inject_Z 32767 <= inject_Z INT16_MIN ->
       encodeSample roundNearest s = INT16_MIN).
Proof.
  intros roundNearest Hnear Hmono s.
  assert (Heq : encodeSample roundNearest s
                = clampInt16 (roundNearest (s * inject_Z 32767)))
    by (apply round_clamp; assumption).
  split; [exact Heq|].
  split; [apply wrap16_id; rewrite Heq; apply clampInt16_range|].
  split; [|split].
  - intros Hs. rewrite Heq.
    assert (H : inject_Z 32767 <= s * inject_Z 32767).
    { change (inject_Z 32767) with (32767 # 1). lra. }
    apply Hmono in H. rewrite (round_integer _ Hnear) in H.
    unfold clampInt16, INT16_MIN, INT16_MAX. lia.
  - intros Hs. rewrite Heq.
    assert (H : s * inject_Z 32767 <= inject_Z (-32767)).
    { change (inject_Z 32767) with (32767 # 1).
      change (inject_Z (-32767)) with (-32767 # 1). lra. }
    apply Hmono in H. rewrite (round_integer _ Hnear) in H.
    unfold clampInt16, INT16_MIN, INT16_MAX. lia.
  - intros Hs. rewrite Heq.
    apply Hmono in Hs. rewrite (round_integer _ Hnear) in Hs.
    unfold clampInt16, INT16_MIN, INT16_MAX in *. lia.
Qed.

Lemma encode_clamps_not_wraps_witness :
  encodeSample mathRound (3 # 2) = clampInt16 (mathRound ((3 # 2) * inject_Z 32767)) /\
  wrap16 (encodeSample mathRound (3 # 2)) = encodeSample mathRound (3 # 2) /\
  encodeSample mathRound (3 # 2) = INT16_MAX.
Proof.
  destruct (encode_clamps_not_wraps mathRound mathRound_nearest
              mathRound_monotone (3 # 2)) as (H1 & H2 & H3 & _).
  split; [exact H1|]. split; [exact H2|].
  apply H3. unfold Qle. cbn. lia.
Defined.

(** C7 as it was stated fails below -1.0: a sample just under -1.0 is
    encoded as -0x7FFF, the end of the scaled range, and a sample of
    -2.0 as -0x8000, the end of the 16-bit range; the value is not one
    extreme for all of them. *)
Lemma encode_below_minus_one :
  (-100001 # 100000) < -1 /\
  encodeSample mathRound (-100001 # 100000) = (-32767)%Z /\
  encodeSample mathRound (-100001 # 100000) <> INT16_MIN /\
  encodeSample mathRound (-2) = INT16_MIN.
Proof.
  split; [unfold Qlt; cbn; lia|].
  split; [vm_compute; reflexivity|].
  split; [vm_compute; discriminate|vm_compute; reflexivity].
Qed.

(* ================================================================== *)
(** * Further properties *)

(** ** Shape of the emitted text *)

Lemma forallb_rev {A} (P : A -> bool) (l : list A) :
  forallb P (rev l) = forallb P l.
Proof.
  induction l as [|x l IH]; [reflexivity|].
  cbn [rev forallb]. rewrite forallb_app, IH. cbn. 
  rewrite andb_true_r. apply andb_comm.
Qed.

Lemma forallb_trimStart (P : N -> bool) (s : jsstring) :
  forallb P s = true -> forallb P (trimStart s) = true.
Proof.
  induction s as [|c r IH]; intros H; [reflexivity|].
  cbn [trimStart]. destruct (isTrimmed c); [|exact H].
  cbn [forallb] in H. apply andb_true_iff in H. apply IH, H.
Qed.

Lemma forallb_trim (P : N -> bool) (s : jsstring) :
  forallb P s = true -> forallb P (trim s) = true.
Proof.
  intros H. unfold trim, trimEnd.
  rewrite forallb_rev. apply forallb_trimStart.
  rewrite forallb_rev. now apply forallb_trimStart.
Qed.

Lemma trimStart_idempotent (s : jsstring) :
  trimStart (trimStart s) = trimStart s.
Proof.
  induction s as [|c r IH]; [reflexivity|].
  cbn [trimStart]. destruct (isTrimmed c) eqn:E; [exact IH|].
  cbn [trimStart]. now rewrite E.
Qed.

Lemma trimStart_app (u v : jsstring) :
  trimStart (u ++ v) =
  if forallb isTrimmed u then trimStart v else trimStart u ++ v.
Proof.
  induction u as [|c u IH]; [reflexivity|].
  cbn [app trimStart forallb]. destruct (isTrimmed c); [exact IH|reflexivity].
Qed.

Lemma trimEnd_cons (a : N) (r : jsstring) :
  isTrimmed a = false ->
  trimEnd (a :: r) = a :: trimEnd r.
Proof.
  intros Ha. unfold trimEnd. cbn [rev]. rewrite trimStart_app.
  destruct (forallb isTrimmed (rev r)) eqn:E.
  - cbn [trimStart]. rewrite Ha. cbn [rev app].
    f_equal. clear Ha.
    assert (H : trimStart (rev r) = []).
    { revert E. generalize (rev r). intros l.
      induction l as [|c l IH]; intros E; [reflexivity|].
      cbn [forallb] in E. apply andb_true_iff in E. destruct E as [E1 E2].
      cbn [trimStart]. rewrite E1. now apply IH. }
    now rewrite H.
  - rewrite rev_app_distr. reflexivity.
Qed.

Lemma trim_idempotent (s : jsstring) : trim (trim s) = trim s.
Proof.
  unfold trim.
  assert (Hs : trimStart (trimEnd (trimStart s)) = trimEnd (trimStart s)).
  { destruct (trimStart s) as [|a r] eqn:E; [reflexivity|].
    assert (Ha : isTrimmed a = false).
    { pose proof (trimStart_idempotent s) as Hi. rewrite E in Hi.
      cbn [trimStart] in Hi. destruct (isTrimmed a); [|reflexivity].
      exfalso. assert (Hl : List.length (trimStart r) = List.length (a :: r))
        by now rewrite Hi.
      clear - Hl. cbn in Hl.
      assert (Hle : forall l, (List.length (trimStart l) <= List.length l)%nat).
      { induction l as [|c l IH]; [cbn; lia|].
        cbn [trimStart]. destruct (isTrimmed c); cbn [List.length]; lia. }
      specialize (Hle r). lia. }
    rewrite (trimEnd_cons a r Ha). cbn [trimStart]. now rewrite Ha. }
  rewrite Hs. unfold trimEnd at 1 2.
  rewrite rev_involutive, trimStart_idempotent. reflexivity.
Qed.

Lemma scan_shape :
  forall s c, scan s = Some c ->
              bracketFree c = true /\ noLineTerminator c = true.
Proof.
  induction s as [|a t IH]; intros c H; cbn [scan] in H.
  - injection H as <-. split; reflexivity.
  - destruct (a =? LBRACKET)%N eqn:Ea.
    + injection H as <-. split; reflexivity.
    + destruct (isLineTerminator a) eqn:El; [discriminate|].
      destruct (scan t) as [c'|]; [|discriminate].
      injection H as <-. destruct (IH c' eq_refl) as [H1 H2].
      unfold bracketFree, noLineTerminator in *. cbn [forallb].
      now rewrite Ea, El, H1, H2.
Qed.

Lemma firstMatch_shape (tag : jsstring) :
  forall s c, firstMatch tag s = Some c ->
              bracketFree c = true /\ noLineTerminator c = true.
Proof.
  induction s as [|a t IH]; intros c H; cbn [firstMatch] in H.
  - unfold matchAt in H. destruct (ciPrefix tag []); [|discriminate].
    destruct (scan _) eqn:E; [|discriminate].
    injection H as <-. exact (scan_shape _ _ E).
  - unfold matchAt in H. destruct (ciPrefix tag (a :: t)).
    + destruct (scan _) eqn:E.
      * injection H as <-. exact (scan_shape _ _ E).
      * exact (IH c H).
    + exact (IH c H).
Qed.

(** X1.  Whatever the transcript, a feedback text that the classifier
    emits contains no opening bracket and no line terminator, and
    trimming it again changes nothing: it has no white space at either
    end. *)
Theorem emitted_text_shape :
  forall (s : jsstring) (f : CategorizedFeedback),
    classifyFeedback s = Emit f ->
    bracketFree (text f) = true /\
    noLineTerminator (text f) = true /\
    trim (text f) = text f.
Proof.
  intros s f H. rewrite classifyFeedback_firstMatch in H.
  assert (Hc : exists tag c, firstMatch tag s = Some c /\ text f = trim c).
  { destruct (firstMatch grammarTag s) as [c|] eqn:Eg.
    { injection H as <-. now exists grammarTag, c. }
    destruct (firstMatch pronunciationTag s) as [c|] eqn:Ep.
    { injection H as <-. now exists pronunciationTag, c. }
    destruct (firstMatch naturalTag s) as [c|] eqn:En; [|discriminate].
    injection H as <-. now exists naturalTag, c. }
  destruct Hc as (tag & c & Hm & ->).
  destruct (firstMatch_shape tag s c Hm) as [Hb Hl].
  split; [now apply forallb_trim|].
  split; [now apply forallb_trim|apply trim_idempotent].
Qed.

Lemma emitted_text_shape_witness :
  bracketFree (js "Past tense needed.") = true /\
  noLineTerminator (js "Past tense needed.") = true /\
  trim (js "Past tense needed.") = js "Past tense needed.".
Proof.
  apply (emitted_text_shape twoTagExample
           (mkFeedback Grammar (js "Past tense needed."))).
  vm_compute. reflexivity.
Defined.

(** ** A transcript with one marker *)

Lemma scan_bracketFree :
  forall s, bracketFree s = true ->
            scan s = if noLineTerminator s then Some s else None.
Proof.
  induction s as [|a t IH]; intros H; [reflexivity|].
  cbn [bracketFree forallb] in H. apply andb_true_iff in H.
  destruct H as [Ha Ht]. apply negb_true_iff in Ha.
  cbn [scan noLineTerminator forallb]. rewrite Ha.
  destruct (isLineTerminator a); [reflexivity|].
  rewrite (IH Ht). cbn [negb andb]. fold (noLineTerminator t).
  destruct (noLineTerminator t); reflexivity.
Qed.

Lemma ciPrefix_self (tag rest : jsstring) : ciPrefix tag (tag ++ rest) = true.
Proof.
  apply ciPrefix_split. exists tag, rest. split; [reflexivity|].
  apply sameLetters_refl.
Qed.

Lemma firstMatch_nil (tag : jsstring) : tagShape tag -> firstMatch tag [] = None.
Proof. intros (body & -> & _). reflexivity. Qed.

Lemma bracketFree_app (a b : jsstring) :
  bracketFree (a ++ b) = bracketFree a && bracketFree b.
Proof. apply forallb_app. Qed.

Lemma firstMatch_single (K tag pre rest : jsstring) :
  isTag K -> isTag tag ->
  bracketFree pre = true -> bracketFree rest = true ->
  (K = tag -> firstMatch K (pre ++ tag ++ rest) = scan rest) /\
  (K <> tag -> firstMatch K (pre ++ tag ++ rest) = None).
Proof.
  intros HK HT Hpre Hrest.
  pose proof (isTag_shape K HK) as SK.
  rewrite (firstMatch_skip K SK pre _ Hpre).
  destruct (isTag_shape tag HT) as (body & Etag & Hbody).
  assert (Htail : firstMatch K (body ++ rest) = None).
  { rewrite <- (app_nil_r (body ++ rest)).
    rewrite (firstMatch_skip K SK (body ++ rest) [])
      by (rewrite bracketFree_app, Hbody, Hrest; reflexivity).
    now apply firstMatch_nil. }
  split.
  - intros ->. subst tag. cbn [app firstMatch]. unfold matchAt.
    change (LBRACKET :: body ++ rest) with ((LBRACKET :: body) ++ rest).
    rewrite ciPrefix_self, skipn_app, skipn_all, Nat.sub_diag.
    cbn [skipn app].
    destruct (scan rest); [reflexivity|exact Htail].
  - intros Hne. destruct (isTag_apart K tag HK HT) as [E|Hap]; [congruence|].
    pose proof (Hap rest) as H0. rewrite Etag in *. cbn [app firstMatch] in *.
    unfold matchAt. rewrite H0. exact Htail.
Qed.

(** X2.  A transcript in which one marker is the only bracket: when the
    text after the marker has no line terminator the classifier emits
    the category of that marker with this text, trimmed (the empty text
    when only white space follows); when the text has a line terminator
    it emits nothing at all. *)
Theorem single_marker_classification :
  forall (tag : jsstring) (cat : Category) (pre rest : jsstring),
    tagCategory tag cat ->
    bracketFree pre = true ->
    bracketFree rest = true ->
    classifyFeedback (pre ++ tag ++ rest) =
    if noLineTerminator rest
    then Emit (mkFeedback cat (trim rest))
    else NoEmit.
Proof.
  intros tag cat pre rest Hc Hpre Hrest.
  rewrite classifyFeedback_firstMatch.
  assert (Hg : isTag grammarTag) by (left; reflexivity).
  assert (Hp : isTag pronunciationTag) by (right; left; reflexivity).
  assert (Hn : isTag naturalTag) by (right; right; reflexivity).
  assert (Gne : grammarTag <> pronunciationTag) by (vm_compute; discriminate).
  assert (Gnn : grammarTag <> naturalTag) by (vm_compute; discriminate).
  assert (Pnn : pronunciationTag <> naturalTag) by (vm_compute; discriminate).
  destruct Hc as [[-> ->]|[[-> ->]|[-> ->]]].
  - rewrite (proj1 (firstMatch_single _ _ pre rest Hg Hg Hpre Hrest) eq_refl).
    rewrite (scan_bracketFree rest Hrest).
    destruct (noLineTerminator rest); [reflexivity|].
    rewrite (proj2 (firstMatch_single _ _ pre rest Hp Hg Hpre Hrest))
      by congruence.
    rewrite (proj2 (firstMatch_single _ _ pre rest Hn Hg Hpre Hrest))
      by congruence.
    reflexivity.
  - rewrite (proj2 (firstMatch_single _ _ pre rest Hg Hp Hpre Hrest))
      by congruence.
    rewrite (proj1 (firstMatch_single _ _ pre rest Hp Hp Hpre Hrest) eq_refl).
    rewrite (scan_bracketFree rest Hrest).
    destruct (noLineTerminator rest); [reflexivity|].
    rewrite (proj2 (firstMatch_single _ _ pre rest Hn Hp Hpre Hrest))
      by congruence.
    reflexivity.
  - rewrite (proj2 (firstMatch_single _ _ pre rest Hg Hn Hpre Hrest))
      by congruence.
    rewrite (proj2 (firstMatch_single _ _ pre rest Hp Hn Hpre Hrest))
      by congruence.
    rewrite (proj1 (firstMatch_single _ _ pre rest Hn Hn Hpre Hrest) eq_refl).
    rewrite (scan_bracketFree rest Hrest).
    destruct (noLineTerminator rest); reflexivity.
Qed.

Lemma single_marker_classification_witness :
  classifyFeedback (js "Nice! " ++ pronunciationTag ++ js "  ")
    = Emit (mkFeedback Pronunciation []) /\
  classifyFeedback (js "Nice! " ++ grammarTag ++ (js " Say" ++ 10%N :: js "went."))
    = NoEmit.
Proof.
  split.
  - apply (single_marker_classification pronunciationTag Pronunciation
             (js "Nice! ") (js "  "));
      [right; left; split; reflexivity|reflexivity|reflexivity].
  - apply (single_marker_classification grammarTag Grammar
             (js "Nice! ") (js " Say" ++ 10%N :: js "went."));
      [left; split; reflexivity|reflexivity|reflexivity].
Defined.

(** ** The classifier along a growing transcript *)

Lemma ciPrefix_length (tag : jsstring) :
  forall u, ciPrefix tag u = true -> (List.length tag <= List.length u)%nat.
Proof.
  induction tag as [|c tag IH]; intros u H; [cbn; lia|].
  destruct u as [|a u]; [discriminate|].
  cbn [ciPrefix] in H. apply andb_true_iff in H.
  cbn [List.length]. apply le_n_S, IH, H.
Qed.

Lemma ciPrefix_app_long (tag : jsstring) :
  forall u v, (List.length tag <= List.length u)%nat ->
              ciPrefix tag (u ++ v) = ciPrefix tag u.
Proof.
  induction tag as [|c tag IH]; intros u v H; [reflexivity|].
  destruct u as [|a u]; [cbn in H; lia|].
  cbn [app ciPrefix]. f_equal. apply IH. cbn in H. lia.
Qed.

Lemma indexOfTag_bound (tag : jsstring) :
  forall s i, indexOfTag tag s = Some i ->
              (i + List.length tag <= List.length s)%nat.
Proof.
  induction s as [|a t IH]; intros i H; cbn [indexOfTag] in H.
  - destruct (ciPrefix tag []) eqn:E; [|discriminate].
    injection H as <-. now apply ciPrefix_length.
  - destruct (ciPrefix tag (a :: t)) eqn:E.
    + injection H as <-. now apply ciPrefix_length.
    + destruct (indexOfTag tag t) as [j|]; [|discriminate].
      injection H as <-. specialize (IH j eq_refl). cbn [List.length]. lia.
Qed.

(** Text appended to a transcript does not move the first occurrence of
    a marker. *)
Lemma indexOfTag_app (tag d : jsstring) :
  forall s i, indexOfTag tag s = Some i -> indexOfTag tag (s ++ d) = Some i.
Proof.
  induction s as [|a t IH]; intros i H.
  - pose proof (indexOfTag_bound tag [] i H) as Hb. cbn in Hb.
    assert (Hl : List.length tag = 0%nat) by lia.
    destruct tag; [|discriminate Hl].
    cbn in H. injection H as <-. destruct d; reflexivity.
  - cbn [indexOfTag] in H. cbn [app indexOfTag].
    destruct (ciPrefix tag (a :: t)) eqn:E.
    + injection H as <-.
      change (a :: t ++ d) with ((a :: t) ++ d).
      rewrite ciPrefix_app_long by now apply ciPrefix_length.
      now rewrite E.
    + destruct (indexOfTag tag t) as [j|] eqn:Ej; [|discriminate].
      injection H as <-.
      pose proof (indexOfTag_bound tag t j Ej) as Hb.
      change (a :: t ++ d) with ((a :: t) ++ d).
      rewrite ciPrefix_app_long by (cbn [List.length]; lia).
      rewrite E. change ((a :: t) ++ d) with (a :: t ++ d).
      now rewrite (IH j eq_refl).
Qed.

Lemma classifyFeedback_byPriority (s : jsstring) :
  noLineTerminator s = true -> classifyFeedback s = classifyByPriority s.
Proof.
  intros H. rewrite classifyFeedback_firstMatch. unfold classifyByPriority.
  rewrite !feedbackAfter_firstMatch by exact H.
  destruct (firstMatch grammarTag s); [reflexivity|].
  destruct (firstMatch pronunciationTag s); [reflexivity|].
  destruct (firstMatch naturalTag s); reflexivity.
Qed.

Lemma feedbackAfter_app (tag s d : jsstring) (t : jsstring) :
  feedbackAfter tag s = Some t -> exists t', feedbackAfter tag (s ++ d) = Some t'.
Proof.
  unfold feedbackAfter. destruct (indexOfTag tag s) as [i|] eqn:E; [|discriminate].
  intros _. rewrite (indexOfTag_app tag d s i E). eauto.
Qed.

Lemma emit_persists :
  forall (s d : jsstring) (f : CategorizedFeedback),
    noLineTerminator (s ++ d) = true ->
    classifyFeedback s = Emit f ->
    exists f',
      classifyFeedback (s ++ d) = Emit f' /\
      (rank (category f') <= rank (category f))%nat.
Proof.
  intros s d f Hl Hs.
  assert (Hls : noLineTerminator s = true).
  { unfold noLineTerminator in *. rewrite forallb_app in Hl.
    apply andb_true_iff in Hl. exact (proj1 Hl). }
  rewrite classifyFeedback_byPriority in Hs by exact Hls.
  rewrite classifyFeedback_byPriority by exact Hl.
  unfold classifyByPriority in *.
  destruct (feedbackAfter grammarTag s) as [t|] eqn:Eg.
  { injection Hs as <-.
    destruct (feedbackAfter_app _ _ d _ Eg) as (t' & ->).
    eexists. split; [reflexivity|]. cbn. lia. }
  destruct (feedbackAfter grammarTag (s ++ d)) as [tg|].
  { eexists. split; [reflexivity|]. cbn. lia. }
  destruct (feedbackAfter pronunciationTag s) as [t|] eqn:Ep.
  { injection Hs as <-.
    destruct (feedbackAfter_app _ _ d _ Ep) as (t' & ->).
    eexists. split; [reflexivity|]. cbn. lia. }
  destruct (feedbackAfter pronunciationTag (s ++ d)) as [tp|].
  { eexists. split; [reflexivity|].
    destruct (feedbackAfter naturalTag s); [|discriminate].
    injection Hs as <-. cbn. lia. }
  destruct (feedbackAfter naturalTag s) as [t|] eqn:En; [|discriminate].
  injection Hs as <-.
  destruct (feedbackAfter_app _ _ d _ En) as (t' & ->).
  eexists. split; [reflexivity|]. cbn. lia.
Qed.


(** X3.  While a model turn is streamed (no line terminator in it), the
    displayed category can only move towards the front of the priority
    order: if the transcript so far yields a feedback item, every
    extension of it yields one too, of the same category or of one
    that is tried earlier. *)
Theorem category_never_drops :
  forall (s d : jsstring) (f : CategorizedFeedback),
    noLineTerminator (s ++ d) = true ->
    classifyFeedback s = Emit f ->
    exists f',
      classifyFeedback (s ++ d) = Emit f' /\
      (rank (category f') <= rank (category f))%nat.
Proof. exact emit_persists. Qed.

Lemma category_never_drops_witness :
  exists f',
    classifyFeedback (js "[Pronunciation] Round your lips."
                      ++ js " [Grammar] Past tense needed.") = Emit f' /\
    (rank (category f') <= rank Pronunciation)%nat.
Proof.
  apply (category_never_drops (js "[Pronunciation] Round your lips.")
           (js " [Grammar] Past tense needed.")
           (mkFeedback Pronunciation (js "Round your lips.")));
    vm_compute; reflexivity.
Defined.

Lemma isTag_long (tag : jsstring) :
  isTag tag ->
  exists b body, tag = LBRACKET :: b :: body /\ bracketFree (b :: body) = true.
Proof.
  intros [-> | [-> | ->]]; eexists; eexists; (split; [reflexivity|]);
    vm_compute; reflexivity.
Qed.

(** A match that a bracket has closed is not affected by what follows
    the bracket. *)
Lemma firstMatch_frozen (tag : jsstring) :
  isTag tag ->
  forall x c y,
    firstMatch tag (x ++ [LBRACKET]) = Some c ->
    firstMatch tag (x ++ LBRACKET :: y) = Some c.
Proof.
  intros HT. destruct (isTag_long tag HT) as (b & body & -> & Hb).
  induction x as [|a x IH]; intros c y H.
  - cbn [app firstMatch] in H. unfold matchAt in H. cbn [ciPrefix] in H.
    rewrite andb_false_r in H. discriminate.
  - cbn [app firstMatch] in H |- *.
    assert (Hm : matchAt (LBRACKET :: b :: body) (a :: x ++ LBRACKET :: y)
                 = matchAt (LBRACKET :: b :: body) (a :: x ++ [LBRACKET])).
    { unfold matchAt.
      destruct (ciPrefix (LBRACKET :: b :: body) (a :: x ++ LBRACKET :: y))
        eqn:E.
      - assert (Hlen : (List.length (LBRACKET :: b :: body)
                        <= List.length (a :: x))%nat).
        { cbn [ciPrefix] in E. apply andb_true_iff in E. destruct E as [_ E].
          apply (ciPrefix_before_bracket (b :: body) x y Hb) in E.
          cbn [List.length] in *. lia. }
        change (a :: x ++ LBRACKET :: y) with ((a :: x) ++ LBRACKET :: y) in *.
        change (a :: x ++ [LBRACKET]) with ((a :: x) ++ [LBRACKET]).
        rewrite ciPrefix_app_long in E by exact Hlen.
        rewrite ciPrefix_app_long by exact Hlen. rewrite E.
        rewrite !skipn_app.
        replace (List.length (LBRACKET :: b :: body) - List.length (a :: x))%nat
          with O by lia.
        cbn [skipn]. apply scan_cut.
      - destruct (ciPrefix (LBRACKET :: b :: body) (a :: x ++ [LBRACKET]))
          eqn:E'; [|reflexivity].
        exfalso.
        assert (E2 : ciPrefix (LBRACKET :: b :: body)
                       ((a :: x ++ [LBRACKET]) ++ y) = true).
        { rewrite ciPrefix_app_long; [exact E'|now apply ciPrefix_length]. }
        cbn [app] in E2. rewrite <- app_assoc in E2. cbn [app] in E2.
        congruence. }
    rewrite Hm.
    destruct (matchAt (LBRACKET :: b :: body) (a :: x ++ [LBRACKET]));
      [exact H|now apply IH].
Qed.

(** X4.  A Grammar tip that is followed by an opening bracket is final:
    whatever the model goes on to say after that bracket, the classifier
    keeps emitting the same Grammar item. *)
Theorem grammar_tip_frozen :
  forall (x y : jsstring) (t : jsstring),
    classifyFeedback (x ++ [LBRACKET]) = Emit (mkFeedback Grammar t) ->
    classifyFeedback (x ++ LBRACKET :: y) = Emit (mkFeedback Grammar t).
Proof.
  intros x y t H. rewrite classifyFeedback_firstMatch in H |- *.
  destruct (firstMatch grammarTag (x ++ [LBRACKET])) as [c|] eqn:E.
  - rewrite (firstMatch_frozen grammarTag (or_introl eq_refl) x c y E).
    exact H.
  - exfalso.
    destruct (firstMatch pronunciationTag (x ++ [LBRACKET]));
      [discriminate|].
    destruct (firstMatch naturalTag (x ++ [LBRACKET])); discriminate.
Qed.

Lemma grammar_tip_frozen_witness :
  classifyFeedback (js "[Grammar] Say went. " ++ LBRACKET :: js "Grammar] no")
  = Emit (mkFeedback Grammar (js "Say went.")).
Proof.
  apply (grammar_tip_frozen (js "[Grammar] Say went. ") (js "Grammar] no")).
  vm_compute. reflexivity.
Defined.

(* ================================================================== *)
(** ** Handlers as compositions of elementary changes *)

Lemma steps_trans (r : bool) (a b c : AppState) :
  Steps r a b -> Steps r b c -> Steps r a c.
Proof.
  intros Hab Hbc. induction Hbc as [|b c d Hbc IH Hcd]; [exact Hab|].
  eapply steps_snoc; [exact (IH Hab)|exact Hcd].
Qed.

Lemma steps_prim (r : bool) (a b : AppState) : Prim r a b -> Steps r a b.
Proof. intros H. eapply steps_snoc; [apply steps_refl|exact H]. Qed.

Section SoundRules.

Variable r : bool.

Lemma sound_ret {A} (a : A) : Sound r (ret a).
Proof. intros st. apply steps_refl. Qed.

Lemma sound_throw {A} : Sound r (@throw A).
Proof. intros st. apply steps_refl. Qed.

Lemma sound_read {A} (f : AppState -> A) : Sound r (read f).
Proof. intros st. apply steps_refl. Qed.

Lemma sound_deref {A} (f : AppState -> option A) : Sound r (deref f).
Proof. intros st. unfold deref. destruct (f st); apply steps_refl. Qed.

Lemma sound_modify (f : AppState -> AppState) :
  (forall st, Prim r st (f st)) -> Sound r (modify f).
Proof. intros H st. apply steps_prim, H. Qed.

Lemma sound_fresh : Sound r fresh.
Proof. intros st. apply steps_prim. apply prim_alloc. Qed.

Lemma sound_bind {A B} (c : M A) (f : A -> M B) :
  Sound r c -> (forall a, Sound r (f a)) -> Sound r (bind c f).
Proof.
  intros Hc Hf st. unfold bind. specialize (Hc st).
  destruct (c st) as [a st'|st']; [|exact Hc].
  eapply steps_trans; [exact Hc|apply Hf].
Qed.

Lemma sound_tryCatch (body handler : M unit) :
  Sound r body -> Sound r handler -> Sound r (tryCatch body handler).
Proof.
  intros Hb Hh st. unfold tryCatch. specialize (Hb st).
  destruct (body st) as [a st'|st']; [exact Hb|].
  eapply steps_trans; [exact Hb|apply Hh].
Qed.

Lemma sound_when (b : bool) (c : M unit) : Sound r c -> Sound r (when b c).
Proof. intros H. destruct b; [exact H|apply sound_ret]. Qed.

Lemma sound_construct (throws : bool) : Sound r (construct throws).
Proof. destruct throws; [apply sound_throw|apply sound_fresh]. Qed.

Variable stopThrows : nat -> bool.

Lemma sound_cleanupAudio : Sound r (cleanupAudio stopThrows).
Proof.
  intros st. rewrite cleanupAudio_run. apply steps_prim, prim_teardown.
Qed.

Lemma sound_onInterrupted : Sound r (onInterrupted stopThrows).
Proof.
  intros st. rewrite onInterrupted_run. apply steps_prim, prim_interrupt.
Qed.

Lemma sound_onmessageRest (message : LiveServerMessage) (clk : Readings) :
  Sound r (onmessageRest stopThrows message clk).
Proof.
  unfold onmessageRest.
  apply sound_bind; [|intros _; apply sound_bind; [|intros _; apply sound_bind]].
  - destruct (inputTranscription message);
      [intros st; apply steps_prim, prim_input_text|apply sound_ret].
  - destruct (outputTranscription message);
      [intros st; apply steps_prim, prim_output_text|apply sound_ret].
  - apply sound_when. intros st. apply steps_prim, prim_turn.
  - intros _. apply sound_when, sound_onInterrupted.
Qed.

Lemma sound_onmessageSchedule (ctx : nat) (clock : Q) (buffer : AudioBuffer) :
  Sound r (onmessageSchedule ctx clock buffer).
Proof.
  intros st. exact (steps_prim r _ _ (prim_schedule r st buffer clock)).
Qed.

Lemma sound_startSessionCatch : Sound r (startSessionCatch stopThrows).
Proof.
  apply sound_bind; [|intros _; apply sound_cleanupAudio].
  apply sound_modify. intros st. apply prim_status.
Qed.

Ltac sound_step :=
  lazymatch goal with
  | |- Sound _ (bind _ _) => apply sound_bind; [|intros ?]
  | |- Sound _ (ret _) => apply sound_ret
  | |- Sound _ throw => apply sound_throw
  | |- Sound _ (read _) => apply sound_read
  | |- Sound _ (deref _) => apply sound_deref
  | |- Sound _ fresh => apply sound_fresh
  | |- Sound _ (construct _) => apply sound_construct
  | |- Sound _ (cleanupAudio _) => apply sound_cleanupAudio
  | |- Sound _ (startSessionCatch _) => apply sound_startSessionCatch
  | |- Sound _ (onmessageRest _ _ _) => apply sound_onmessageRest
  | |- Sound _ (onmessageSchedule _ _ _) => apply sound_onmessageSchedule
  | |- Sound _ (when _ _) => apply sound_when
  | |- Sound _ (tryCatch _ _) => apply sound_tryCatch
  | |- Sound _ (modify _) => apply sound_modify; intros ?; constructor
  end.

(** Every handler is a composition of elementary changes; the reset is
    needed for the reset button only. *)
Lemma sound_handler (e : Event) :
  r = true \/ noReset e = true -> Sound r (handler stopThrows e).
Proof.
  intros Hr.
  destruct e as [env| | |g| |m t clk|k b clk|k|s| |]; cbn [handler].
  - unfold startSession. repeat sound_step.
  - unfold stopSession, perform. repeat sound_step.
  - destruct Hr as [->|Hr]; [|discriminate Hr].
    intros st. apply steps_prim, prim_reset.
  - unfold startSessionResume, perform. repeat sound_step.
    destruct g; sound_step.
  - unfold onopen. repeat sound_step.
  - apply sound_bind.
    + unfold onmessageStart. apply sound_bind; [apply sound_read|].
      intros o. destruct (audioData m) as [d|], o as [ctx|];
        try apply sound_ret.
      destruct (truthy d); [|apply sound_ret].
      intros st. cbn. apply steps_prim. apply prim_suspend.
    + intros [|]; [apply sound_ret|apply sound_onmessageRest].
  - intros st. unfold bind at 1, read at 1.
    destruct (nth_error (suspended st) k) as [p|]; [|apply steps_refl].
    unfold bind at 1, modify at 1.
    eapply steps_trans;
      [exact (steps_prim r _ _ (prim_resume r st k))
      |apply sound_bind;
         [apply sound_onmessageSchedule|intros ?; apply sound_onmessageRest]].
  - apply sound_modify. intros st. apply prim_resume.
  - unfold onended. apply sound_modify. intros st. apply prim_ended.
  - unfold onerror. repeat sound_step.
  - unfold onclose. repeat sound_step.
Qed.

End SoundRules.

Lemma steps_preserves (r : bool) (Inv : AppState -> Prop) :
  (forall a b, Prim r a b -> Inv a -> Inv b) ->
  forall a b, Steps r a b -> Inv a -> Inv b.
Proof.
  intros HP a b HS Ha. induction HS as [|a b c HS IH Hbc]; [exact Ha|].
  exact (HP b c Hbc (IH Ha)).
Qed.

Lemma run_preserves (r : bool) (stopThrows : nat -> bool)
      (Inv : AppState -> Prop) :
  (forall a b, Prim r a b -> Inv a -> Inv b) ->
  forall es st st',
    r = true \/ forallb noReset es = true ->
    run stopThrows es st = Some st' ->
    Inv st -> Inv st'.
Proof.
  intros HP. induction es as [|e es IH]; intros st st' Hr Hrun Hinv.
  - cbn in Hrun. now injection Hrun as <-.
  - cbn [run] in Hrun. destruct (enabled e st); [|discriminate].
    apply (IH (fire stopThrows e st) st'); [| exact Hrun |].
    + destruct Hr as [Hr|Hr]; [now left|right].
      cbn [forallb] in Hr. apply andb_true_iff in Hr. exact (proj2 Hr).
    + unfold fire. apply (steps_preserves r Inv HP st); [|exact Hinv].
      apply sound_handler.
      destruct Hr as [Hr|Hr]; [now left|right].
      cbn [forallb] in Hr. apply andb_true_iff in Hr. exact (proj1 Hr).
Qed.

Ltac prim_cases HP :=
  destruct HP;
  unfold onInputTranscription, onOutputTranscription, onTurnComplete,
    resetConversation, tornDown, bind, modify, read, when in *;
  cbn in *;
  repeat match goal with
         | |- context [classifyFeedback ?x] => destruct (classifyFeedback x)
         | |- context [truthy ?x || truthy ?y] =>
             destruct (truthy x || truthy y)
         end;
  cbn in *.

(** ** The conversation along a run *)

(** X5.  The published transcription always mirrors the two
    accumulators: if it shows their contents in some state, it shows
    their contents after every run of events from that state. *)
Theorem transcription_mirrors_accumulators :
  forall (stopThrows : nat -> bool) (es : list Event) (st st' : AppState),
    transcription st
      = Transcription.mk (currentUserTextRef st) (currentModelTextRef st) ->
    run stopThrows es st = Some st' ->
    transcription st'
      = Transcription.mk (currentUserTextRef st') (currentModelTextRef st').
Proof.
  intros stopThrows es st st' H0 Hrun.
  apply (run_preserves true stopThrows
           (fun s => transcription s
                     = Transcription.mk (currentUserTextRef s)
                                        (currentModelTextRef s)))
    with (es := es) (st := st); [|now left|exact Hrun|exact H0].
  intros a b HP Ha. prim_cases HP; try assumption; try reflexivity;
    rewrite Ha; reflexivity.
Qed.

Lemma transcription_mirrors_accumulators_witness :
  exists st',
    run quietStop (firstn 2 chatEvents) initialState = Some st' /\
    transcription st' = Transcription.mk (js "Hello") (js "[Grammar] Hi.") /\
    currentUserTextRef st' = js "Hello".
Proof.
  destruct (run quietStop (firstn 2 chatEvents) initialState) as [st'|] eqn:E;
    [|vm_compute in E; discriminate E].
  exists st'. split; [reflexivity|].
  pose proof (transcription_mirrors_accumulators quietStop
                (firstn 2 chatEvents) initialState st' eq_refl E) as H.
  vm_compute in E. injection E as <-. split; [exact H|reflexivity].
Defined.

Lemma pair_ids_differ (a b : Z) :
  numberToString a ++ js "-user" <> numberToString b ++ js "-model".
Proof.
  intros H. apply (f_equal (@rev N)) in H.
  rewrite !rev_app_distr in H. cbn in H. discriminate H.
Qed.

Lemma Paired_even_length (l : list Message.t) :
  Paired l -> Nat.even (List.length l) = true.
Proof.
  induction 1 as [|l u m HP IH Hu Hm Hid]; [reflexivity|].
  rewrite length_app. cbn [List.length].
  replace (List.length l + 2)%nat with (S (S (List.length l))) by lia.
  exact IH.
Qed.

Lemma Paired_roles (l : list Message.t) :
  Paired l ->
  forall n msg,
    nth_error l n = Some msg ->
    Message.role msg = if Nat.even n then user else model.
Proof.
  induction 1 as [|l u m HP IH Hu Hm Hid]; intros n msg Hn.
  - destruct n; discriminate Hn.
  - pose proof (Paired_even_length l HP) as He.
    destruct (Nat.lt_ge_cases n (List.length l)) as [Hlt|Hge].
    + rewrite nth_error_app1 in Hn by exact Hlt. exact (IH n msg Hn).
    + rewrite nth_error_app2 in Hn by exact Hge.
      replace n with (List.length l + (n - List.length l))%nat by lia.
      remember (n - List.length l)%nat as k eqn:Ek. clear Ek.
      destruct k as [|[|k]]; cbn in Hn.
      * injection Hn as <-. rewrite Nat.add_0_r, He. exact Hu.
      * injection Hn as <-.
        replace (List.length l + 1)%nat with (S (List.length l)) by lia.
        rewrite Nat.even_succ, <- Nat.negb_even, He. exact Hm.
      * destruct k; discriminate Hn.
Qed.

Lemma Paired_ids (l : list Message.t) :
  Paired l ->
  forall k u m,
    nth_error l (2 * k) = Some u ->
    nth_error l (2 * k + 1) = Some m ->
    Message.id u <> Message.id m.
Proof.
  induction 1 as [|l u0 m0 HP IH Hu Hm Hid]; intros k u m H1 H2.
  - destruct k; discriminate H1.
  - pose proof (Paired_even_length l HP) as He.
    destruct (Nat.lt_ge_cases (2 * k) (List.length l)) as [Hlt|Hge].
    + assert (Hlt' : (2 * k + 1 < List.length l)%nat).
      { destruct (Nat.eq_dec (2 * k + 1) (List.length l)) as [E|E]; [|lia].
        exfalso. rewrite <- E in He.
        replace (2 * k + 1)%nat with (S (2 * k)) in He by lia.
        rewrite Nat.even_succ, <- Nat.negb_even, Nat.even_mul in He.
        discriminate He. }
      rewrite nth_error_app1 in H1 by exact Hlt.
      rewrite nth_error_app1 in H2 by exact Hlt'.
      exact (IH k u m H1 H2).
    + rewrite nth_error_app2 in H1 by exact Hge.
      rewrite nth_error_app2 in H2 by lia.
      replace (2 * k + 1 - List.length l)%nat
        with (S (2 * k - List.length l)) in H2 by lia.
      destruct (2 * k - List.length l)%nat as [|[|j]]; cbn in H1, H2.
      * injection H1 as <-. injection H2 as <-. exact Hid.
      * discriminate H2.
      * destruct j; discriminate H1.
Qed.

(** X6.  The conversation log is always a sequence of pairs: from a log
    of pairs (the empty log of a new conversation in particular), every
    run of events leaves a log of even length in which the messages at
    even positions are the user's and those at odd positions the
    model's, and in which the two messages of a pair never share an id,
    even when the clock gives both the same reading. *)
Theorem log_is_paired :
  forall (stopThrows : nat -> bool) (es : list Event) (st st' : AppState),
    Paired (messages st) ->
    run stopThrows es st = Some st' ->
    Paired (messages st') /\
    Nat.even (List.length (messages st')) = true /\
    (forall n msg,
        nth_error (messages st') n = Some msg ->
        Message.role msg = if Nat.even n then user else model) /\
    (forall k u m,
        nth_error (messages st') (2 * k) = Some u ->
        nth_error (messages st') (2 * k + 1) = Some m ->
        Message.id u <> Message.id m).
Proof.
  intros stopThrows es st st' H0 Hrun.
  assert (HP : Paired (messages st')).
  { apply (run_preserves true stopThrows (fun s => Paired (messages s)))
      with (es := es) (st := st); [|now left|exact Hrun|exact H0].
    intros a b HP Ha. prim_cases HP; try assumption; try apply paired_nil.
    apply paired_snoc; try reflexivity; try assumption.
    apply pair_ids_differ. }
  split; [exact HP|]. split; [now apply Paired_even_length|].
  split; [now apply Paired_roles|now apply Paired_ids].
Qed.

Lemma log_is_paired_witness :
  exists st',
    run quietStop chatEvents initialState = Some st' /\
    List.length (messages st') = 2%nat /\
    Paired (messages st').
Proof.
  destruct (run quietStop chatEvents initialState) as [st'|] eqn:E;
    [|vm_compute in E; discriminate E].
  exists st'. split; [reflexivity|].
  destruct (log_is_paired quietStop chatEvents initialState st'
              paired_nil E) as (HP & _).
  split; [|exact HP].
  vm_compute in E. injection E as <-. reflexivity.
Defined.

(** X7.  Nothing but the reset button removes anything from the
    conversation: along a run without it (turn ends, interruptions,
    errors, stopping and starting again included) the log only grows at
    its end, and a feedback item on display is replaced at most, never
    cleared. *)
Theorem conversation_survives_without_reset :
  forall (stopThrows : nat -> bool) (es : list Event) (st st' : AppState),
    forallb noReset es = true ->
    run stopThrows es st = Some st' ->
    (exists more, messages st' = messages st ++ more) /\
    (latestFeedback st <> None -> latestFeedback st' <> None).
Proof.
  intros stopThrows es st st' Hn Hrun.
  apply (run_preserves false stopThrows
           (fun s => (exists more, messages s = messages st ++ more) /\
                     (latestFeedback st <> None -> latestFeedback s <> None)))
    with (es := es) (st := st); [|now right|exact Hrun|].
  - intros a b HP [(more & Hm) Hf].
    remember false as r0 eqn:Er.
    prim_cases HP; try discriminate Er;
      (split; [|try assumption; try (intros _; discriminate)]);
      try (exists more; exact Hm).
    eexists. rewrite Hm, <- app_assoc. reflexivity.
  - split; [exists []; now rewrite app_nil_r|auto].
Qed.

Lemma conversation_survives_without_reset_witness :
  exists st',
    run quietStop restartEvents lessonState = Some st' /\
    (exists more, messages st' = messages lessonState ++ more) /\
    latestFeedback st' <> None.
Proof.
  destruct (run quietStop restartEvents lessonState) as [st'|] eqn:E;
    [|vm_compute in E; discriminate E].
  exists st'. split; [reflexivity|].
  destruct (conversation_survives_without_reset quietStop restartEvents
              lessonState st' eq_refl E) as [Hm Hf].
  split; [exact Hm|]. apply Hf. discriminate.
Defined.

(** ** Transcript deltas *)






(* ================================================================== *)
(** ** The playback queue along a run *)

Lemma scheduledOf_teardown (st : AppState) :
  scheduledOf (teardownEffects st) = [].
Proof.
  unfold teardownEffects.
  destruct (scriptProcessorRef st), (inputAudioContextRef st),
    (outputAudioContextRef st); cbn; apply scheduledOf_stops.
Qed.

(** X9.  No buffer is ever scheduled at a negative time: from a state
    whose scheduling clock and past start times are not negative, every
    run of events, whatever the device clock reads and whatever is
    interrupted or torn down on the way, keeps the scheduling clock and
    every start time passed to [source.start] at zero or above. *)
Theorem start_times_never_negative :
  forall (stopThrows : nat -> bool) (es : list Event) (st st' : AppState),
    0 <= nextStartTimeRef st ->
    Forall (fun b => 0 <= startTime b) (scheduledOf (effects st)) ->
    run stopThrows es st = Some st' ->
    0 <= nextStartTimeRef st' /\
    Forall (fun b => 0 <= startTime b) (scheduledOf (effects st')).
Proof.
  intros stopThrows es st st' Hn Hs Hrun.
  apply (run_preserves true stopThrows
           (fun s => 0 <= nextStartTimeRef s /\
                     Forall (fun b => 0 <= startTime b)
                            (scheduledOf (effects s))))
    with (es := es) (st := st); [|now left|exact Hrun|now split].
  intros a b HP [Ha1 Ha2].
  prim_cases HP; try (split; assumption);
    (split;
     [ first [ assumption
             | apply Qle_refl
             | eapply Qle_trans; [exact Ha1|apply Q.le_max_l]
             | pose proof (duration_nonneg buffer); lra ]
     | rewrite ?scheduledOf_app, ?scheduledOf_teardown, ?scheduledOf_stops;
       cbn [scheduledOf]; rewrite ?app_nil_r;
       first [ assumption
             | apply Forall_app; split;
               [exact Ha2|constructor; [exact Ha1|constructor]] ] ]).
Qed.

Lemma start_times_never_negative_witness :
  exists st',
    run quietStop (turnEvents ++ [SessionMessage interruptedMessage (1 # 3) noReadings])
        lessonState = Some st' /\
    0 <= nextStartTimeRef st' /\
    Forall (fun b => 0 <= startTime b) (scheduledOf (effects st')).
Proof.
  destruct (run quietStop
              (turnEvents ++ [SessionMessage interruptedMessage (1 # 3) noReadings])
              lessonState) as [st'|] eqn:E;
    [|vm_compute in E; discriminate E].
  exists st'. split; [reflexivity|].
  apply (start_times_never_negative quietStop
           (turnEvents ++ [SessionMessage interruptedMessage (1 # 3) noReadings])
           lessonState st'); [|constructor|exact E].
  unfold Qle. cbn. lia.
Defined.

Lemma setAdd_fresh (x : nat) (l : list nat) :
  ~ In x l -> setAdd x l = l ++ [x].
Proof.
  intros H. unfold setAdd.
  destruct (existsb (Nat.eqb x) l) eqn:E; [|reflexivity].
  apply existsb_exists in E. destruct E as (y & Hy & Exy).
  apply Nat.eqb_eq in Exy. subst y. contradiction.
Qed.

Lemma In_setDelete (x y : nat) (l : list nat) :
  In y (setDelete x l) <-> In y l /\ y <> x.
Proof.
  unfold setDelete. rewrite filter_In, negb_true_iff, Nat.eqb_neq.
  split; intros [H1 H2]; split; auto.
Qed.

(** X10.  The set of tracked sources holds each source once, holds only
    sources made by [createBufferSource] so far, and holds only sources
    on which [start] has been called: from a state where this is so,
    every run of events keeps it so. *)
Theorem tracked_sources_distinct_and_started :
  forall (stopThrows : nat -> bool) (es : list Event) (st st' : AppState),
    NoDup (sourcesRef st) ->
    (forall h, In h (sourcesRef st) ->
               (h < nextObject st)%nat /\
               exists b, In b (scheduledOf (effects st)) /\ source b = h) ->
    run stopThrows es st = Some st' ->
    NoDup (sourcesRef st') /\
    (forall h, In h (sourcesRef st') ->
               (h < nextObject st')%nat /\
               exists b, In b (scheduledOf (effects st')) /\ source b = h).
Proof.
  intros stopThrows es st st' Hd Hs Hrun.
  apply (run_preserves true stopThrows
           (fun s => NoDup (sourcesRef s) /\
                     forall h, In h (sourcesRef s) ->
                       (h < nextObject s)%nat /\
                       exists b, In b (scheduledOf (effects s)) /\
                                 source b = h))
    with (es := es) (st := st); [|now left|exact Hrun|now split].
  intros a b HP [Ha1 Ha2].
  prim_cases HP; try (split; assumption);
    try (split; [constructor|intros h []]).
  - (* a new object *)
    split; [exact Ha1|]. intros h Hh. destruct (Ha2 h Hh) as [Hlt Hb].
    split; [lia|exact Hb].
  - (* connect *)
    split; [exact Ha1|]. intros h Hh. destruct (Ha2 h Hh) as [Hlt (x & Hx & E)].
    split; [exact Hlt|]. exists x. split; [|exact E].
    rewrite scheduledOf_app. apply in_or_app. now left.
  - (* close *)
    split; [exact Ha1|]. intros h Hh. destruct (Ha2 h Hh) as [Hlt (x & Hx & E)].
    split; [exact Hlt|]. exists x. split; [|exact E].
    rewrite scheduledOf_app. apply in_or_app. now left.
  - (* a buffer is scheduled *)
    assert (Hfresh : ~ In (nextObject st0) (sourcesRef st0)).
    { intros Hin. destruct (Ha2 _ Hin) as [Hlt _]. lia. }
    rewrite (setAdd_fresh _ _ Hfresh). split.
    + apply NoDup_app; [exact Ha1|repeat constructor; intros []|].
      intros x Hx [<-|[]]. exact (Hfresh Hx).
    + intros h Hh. rewrite scheduledOf_app. apply in_app_or in Hh.
      destruct Hh as [Hh|[<-|[]]].
      * destruct (Ha2 h Hh) as [Hlt (x & Hx & E)].
        split; [lia|]. exists x. split; [|exact E].
        apply in_or_app. now left.
      * split; [lia|]. eexists. split; [apply in_or_app; right; now left|].
        reflexivity.
  - (* a source ends *)
    split.
    + unfold setDelete. now apply NoDup_filter.
    + intros h Hh. apply In_setDelete in Hh. exact (Ha2 h (proj1 Hh)).
Qed.

Lemma tracked_sources_distinct_and_started_witness :
  exists st',
    run quietStop turnEvents (setSources lessonState []) = Some st' /\
    sourcesRef st' = [7%nat; 8%nat] /\
    NoDup (sourcesRef st').
Proof.
  destruct (run quietStop turnEvents (setSources lessonState []))
    as [st'|] eqn:E; [|vm_compute in E; discriminate E].
  exists st'. split; [reflexivity|].
  destruct (tracked_sources_distinct_and_started quietStop turnEvents
              (setSources lessonState []) st') as [Hd _];
    [constructor|intros h []|exact E|].
  split; [|exact Hd].
  vm_compute in E. injection E as <-. reflexivity.
Defined.

Lemma transcriptPhase_devices (message : LiveServerMessage) (clk : Readings)
      (st : AppState) :
  let st' := transcriptPhase message clk st in
  inputAudioContextRef st' = inputAudioContextRef st /\
  outputAudioContextRef st' = outputAudioContextRef st /\
  scriptProcessorRef st' = scriptProcessorRef st /\
  sessionPromiseRef st' = sessionPromiseRef st /\
  nextObject st' = nextObject st /\
  awaitingMedia st' = awaitingMedia st.
Proof.
  unfold transcriptPhase.
  destruct message as [ad it ot tc ir]. cbn [inputTranscription
    outputTranscription turnComplete].
  destruct it as [t1|], ot as [t2|], tc;
    unfold onTurnComplete, onOutputTranscription, onInputTranscription,
      bind, modify, read, when; cbn;
    repeat match goal with
           | |- context [classifyFeedback ?x] => destruct (classifyFeedback x)
           | |- context [truthy ?x || truthy ?y] =>
               destruct (truthy x || truthy y)
           end; cbn; repeat split; reflexivity.
Qed.

Lemma Qmax_keeps (x y : Q) : y <= x -> Qmax x y = x.
Proof.
  intros H. unfold Qmax, GenericMinMax.gmax.
  destruct (x ?= y) eqn:E; try reflexivity.
  apply Qlt_alt in E. exfalso. exact (Qle_not_lt _ _ H E).
Qed.

(** One audio chunk whose decode completes before anything else
    happens. *)
Lemma chunk_decoded_at_once (stopThrows : nat -> bool) (st : AppState)
      (message : LiveServerMessage) (t : Q) (clk : Readings)
      (buffer : AudioBuffer) (ctx : nat) (d : jsstring) :
  suspended st = [] ->
  outputAudioContextRef st = Some ctx ->
  audioData message = Some d ->
  truthy d = true ->
  interrupted message = false ->
  exists st2,
    run stopThrows [SessionMessage message t clk; DecodeDone 0 buffer clk] st
      = Some st2 /\
    scheduledOf (effects st2) =
      scheduledOf (effects st) ++
      [mkPlayback (nextObject st) (Qmax (nextStartTimeRef st) t)
                  (duration buffer) t] /\
    nextStartTimeRef st2 = Qmax (nextStartTimeRef st) t + duration buffer /\
    sourcesRef st2 = setAdd (nextObject st) (sourcesRef st) /\
    suspended st2 = [] /\
    outputAudioContextRef st2 = Some ctx /\
    nextObject st2 = S (nextObject st).
Proof.
  intros Hs Ho Ha Ht Hi.
  cbn [run enabled].
  assert (E1 : fire stopThrows (SessionMessage message t clk) st =
               setSuspended
                 (setNextStartTime st (Qmax (nextStartTimeRef st) t))
                 (suspended st ++ [mkSuspended message ctx t]))
    by (rewrite fire_message, Ha, Ho, Ht; reflexivity).
  rewrite E1. cbn [suspended setSuspended setNextStartTime]. rewrite Hs.
  cbn [app List.length Nat.ltb Nat.leb].
  eexists. split; [reflexivity|].
  rewrite (fire_decoded stopThrows 0 buffer clk _ (mkSuspended message ctx t))
    by reflexivity.
  rewrite fire_rest. cbn [pendingMessage]. rewrite Hi.
  match goal with
  | |- context [transcriptPhase ?mm ?cc ?ss] =>
      destruct (transcriptPhase_frame mm cc ss)
        as (He & Hn & Hso & Hsu & _);
      destruct (transcriptPhase_devices mm cc ss)
        as (_ & Hoc & _ & _ & Hno & _)
  end.
  rewrite He, Hn, Hso, Hsu, Hoc, Hno. cbn. rewrite scheduledOf_app.
  repeat split; try reflexivity. exact Ho.
Qed.

(** X11.  Consecutive chunks play back to back: when the second chunk
    of a turn arrives while the device clock has not yet passed the end
    of the first (each decoded on arrival), the second buffer is
    scheduled to start exactly where the first one ends. *)
Theorem chunks_play_back_to_back :
  forall (stopThrows : nat -> bool) (st : AppState)
         (m1 m2 : LiveServerMessage) (t1 t2 : Q) (clk : Readings)
         (b1 b2 : AudioBuffer) (ctx : nat) (d1 d2 : jsstring),
    suspended st = [] ->
    outputAudioContextRef st = Some ctx ->
    audioData m1 = Some d1 -> truthy d1 = true -> interrupted m1 = false ->
    audioData m2 = Some d2 -> truthy d2 = true -> interrupted m2 = false ->
    t2 <= Qmax (nextStartTimeRef st) t1 + duration b1 ->
    exists st' p1 p2,
      run stopThrows
          [ SessionMessage m1 t1 clk; DecodeDone 0 b1 clk;
            SessionMessage m2 t2 clk; DecodeDone 0 b2 clk ] st = Some st' /\
      scheduledOf (effects st') = scheduledOf (effects st) ++ [p1; p2] /\
      bufferDuration p1 = duration b1 /\
      startTime p2 = startTime p1 + bufferDuration p1.
Proof.
  intros stopThrows st m1 m2 t1 t2 clk b1 b2 ctx d1 d2
         Hs Ho Ha1 Ht1 Hi1 Ha2 Ht2 Hi2 Hle.
  destruct (chunk_decoded_at_once stopThrows st m1 t1 clk b1 ctx d1
              Hs Ho Ha1 Ht1 Hi1)
    as (sa & Hra & Hea & Hna & _ & Hsa & Hoa & _).
  destruct (chunk_decoded_at_once stopThrows sa m2 t2 clk b2 ctx d2
              Hsa Hoa Ha2 Ht2 Hi2)
    as (sb & Hrb & Heb & _).
  exists sb. eexists. eexists. split.
  - change [SessionMessage m1 t1 clk; DecodeDone 0 b1 clk;
            SessionMessage m2 t2 clk; DecodeDone 0 b2 clk]
      with ([SessionMessage m1 t1 clk; DecodeDone 0 b1 clk]
            ++ [SessionMessage m2 t2 clk; DecodeDone 0 b2 clk]).
    rewrite run_app, Hra. exact Hrb.
  - split; [rewrite Heb, Hea, <- app_assoc; reflexivity|].
    split; [reflexivity|]. cbn [startTime bufferDuration].
    rewrite Hna. apply Qmax_keeps. exact Hle.
Qed.

Lemma chunks_play_back_to_back_witness :
  exists st' p1 p2,
    run quietStop
        [ SessionMessage audioMessage (2 # 1) noReadings;
          DecodeDone 0 halfSecond noReadings;
          SessionMessage audioMessage (22 # 10) noReadings;
          DecodeDone 0 quarterSecond noReadings ] lessonState = Some st' /\
    scheduledOf (effects st') = scheduledOf (effects lessonState) ++ [p1; p2] /\
    bufferDuration p1 = duration halfSecond /\
    startTime p2 = startTime p1 + bufferDuration p1.
Proof.
  apply (chunks_play_back_to_back quietStop lessonState audioMessage
           audioMessage (2 # 1) (22 # 10) noReadings halfSecond quarterSecond
           2%nat (js "AAAA") (js "AAAA")); try reflexivity.
  vm_compute. discriminate.
Defined.



(** X13.  A source that has played to its end is dropped from the
    tracked set, so a later interruption calls [stop()] on the other
    tracked sources only. *)
Theorem ended_source_is_not_stopped :
  forall (stopThrows : nat -> bool) (st : AppState) (h : nat)
         (message : LiveServerMessage) (clk : Readings),
    interrupted message = true ->
    exists st',
      onmessageRest stopThrows message clk (fire stopThrows (SourceEnded h) st)
        = Ok tt st' /\
      stoppedOf (effects st')
        = stoppedOf (effects st) ++ setDelete h (sourcesRef st) /\
      ~ In h (setDelete h (sourcesRef st)) /\
      (forall x, x <> h -> In x (sourcesRef st) ->
                 In x (setDelete h (sourcesRef st))).
Proof.
  intros stopThrows st h message clk Hi.
  rewrite onmessageRest_run, Hi, onInterrupted_run.
  eexists. split; [reflexivity|].
  match goal with
  | |- context [transcriptPhase ?mm ?cc ?ss] =>
      destruct (transcriptPhase_frame mm cc ss) as (He & _ & Hso & _)
  end.
  assert (He2 : effects (fire stopThrows (SourceEnded h) st) = effects st)
    by reflexivity.
  assert (Hs2 : sourcesRef (fire stopThrows (SourceEnded h) st)
                = setDelete h (sourcesRef st)) by reflexivity.
  unfold setNextStartTime, setSources, setEffects. cbn [finalState effects].
  rewrite He, Hso, He2, Hs2, stoppedOf_app, stoppedOf_stops.
  split; [reflexivity|]. split.
  - intros Hin. apply In_setDelete in Hin. now destruct Hin.
  - intros x Hx Hin. apply In_setDelete. now split.
Qed.

Lemma ended_source_is_not_stopped_witness :
  exists st',
    onmessageRest quietStop interruptedMessage noReadings
                  (fire quietStop (SourceEnded 5) lessonState) = Ok tt st' /\
    stoppedOf (effects st') = [6%nat].
Proof.
  destruct (ended_source_is_not_stopped quietStop lessonState 5
              interruptedMessage noReadings eq_refl) as (st' & Hr & Hs & _).
  exists st'. split; [exact Hr|]. rewrite Hs. reflexivity.
Defined.

(* ================================================================== *)
(** ** Starting and stopping *)

Lemma closedOf_app (a b : list Effect) :
  closedOf (a ++ b) = closedOf a ++ closedOf b.
Proof.
  induction a as [|e a IH]; [reflexivity|].
  destruct e; cbn [app closedOf]; rewrite IH; reflexivity.
Qed.

Lemma connectsOf_app (a b : list Effect) :
  connectsOf (a ++ b) = connectsOf a ++ connectsOf b.
Proof.
  induction a as [|e a IH]; [reflexivity|].
  destruct e; cbn [app connectsOf]; rewrite IH; reflexivity.
Qed.

Lemma sessionClosesOf_app (a b : list Effect) :
  sessionClosesOf (a ++ b) = sessionClosesOf a ++ sessionClosesOf b.
Proof.
  induction a as [|e a IH]; [reflexivity|].
  destruct e; cbn [app sessionClosesOf]; rewrite IH; reflexivity.
Qed.

Lemma closedOf_stops (l : list nat) : closedOf (map SourceStop l) = [].
Proof. induction l as [|x l IH]; [reflexivity|exact IH]. Qed.

Lemma connectsOf_stops (l : list nat) : connectsOf (map SourceStop l) = [].
Proof. induction l as [|x l IH]; [reflexivity|exact IH]. Qed.

Lemma sessionClosesOf_stops (l : list nat) :
  sessionClosesOf (map SourceStop l) = [].
Proof. induction l as [|x l IH]; [reflexivity|exact IH]. Qed.

Lemma closedOf_teardown (st : AppState) :
  closedOf (teardownEffects st) =
  match inputAudioContextRef st with Some c => [c] | None => [] end ++
  match outputAudioContextRef st with Some c => [c] | None => [] end.
Proof.
  unfold teardownEffects.
  destruct (scriptProcessorRef st), (inputAudioContextRef st),
    (outputAudioContextRef st); cbn; rewrite closedOf_stops; reflexivity.
Qed.

Lemma connectsOf_teardown (st : AppState) :
  connectsOf (teardownEffects st) = [].
Proof.
  unfold teardownEffects.
  destruct (scriptProcessorRef st), (inputAudioContextRef st),
    (outputAudioContextRef st); cbn; apply connectsOf_stops.
Qed.

Lemma sessionClosesOf_teardown (st : AppState) :
  sessionClosesOf (teardownEffects st) = [].
Proof.
  unfold teardownEffects.
  destruct (scriptProcessorRef st), (inputAudioContextRef st),
    (outputAudioContextRef st); cbn; apply sessionClosesOf_stops.
Qed.

Lemma effects_tornDown (st : AppState) :
  effects (tornDown st) = effects st ++ teardownEffects st.
Proof. reflexivity. Qed.

(** X14.  A start in which a constructor throws is contained: the
    exception does not leave [startSession], the status is ERROR, the
    three device refs are null, no microphone request is pending and
    nothing is connected; and, starting from null device refs, an audio
    context that was created before the failure is closed, and no other
    is. *)
Theorem failed_start_is_contained :
  forall (stopThrows : nat -> bool) (env : StartEnv) (st : AppState),
    genAIThrows env || inputContextThrows env || outputContextThrows env
      = true ->
    inputAudioContextRef st = None ->
    outputAudioContextRef st = None ->
    exists st',
      startSession stopThrows env st = Ok tt st' /\
      status st' = ERROR /\
      inputAudioContextRef st' = None /\
      outputAudioContextRef st' = None /\
      scriptProcessorRef st' = None /\
      awaitingMedia st' = awaitingMedia st /\
      connectsOf (effects st') = connectsOf (effects st) /\
      closedOf (effects st') =
        closedOf (effects st) ++
        (if genAIThrows env || inputContextThrows env
         then [] else [S (nextObject st)]).
Proof.
  intros stopThrows env st Hthrow Hi Ho.
  destruct env as [g i o]. cbn [genAIThrows inputContextThrows
    outputContextThrows] in *.
  unfold startSession, tryCatch.
  destruct g, i, o; try discriminate Hthrow;
    cbn -[startSessionCatch]; rewrite startSessionCatch_run;
    (eexists; split; [reflexivity|]);
    rewrite !effects_tornDown, closedOf_app, connectsOf_app,
      closedOf_teardown, connectsOf_teardown;
    cbn; rewrite ?Hi, ?Ho, ?app_nil_r;
    repeat split; reflexivity.
Qed.

Lemma failed_start_is_contained_witness :
  exists st',
    startSession quietStop (mkStartEnv false false true) initialState
      = Ok tt st' /\
    status st' = ERROR /\
    closedOf (effects st') = [1%nat].
Proof.
  destruct (failed_start_is_contained quietStop (mkStartEnv false false true)
              initialState eq_refl eq_refl eq_refl)
    as (st' & Hr & Hs & _ & _ & _ & _ & _ & Hc).
  exists st'. split; [exact Hr|]. split; [exact Hs|exact Hc].
Defined.

(** X15.  A refused microphone is contained in the same way: when
    [getUserMedia] rejects, the status becomes ERROR, both audio
    contexts that the start had opened are closed, the device refs are
    null, and no connection to the service is attempted. *)
Theorem refused_microphone_is_contained :
  forall (stopThrows : nat -> bool) (st : AppState) (i o : nat),
    inputAudioContextRef st = Some i ->
    outputAudioContextRef st = Some o ->
    exists st',
      startSessionResume stopThrows false st = Ok tt st' /\
      status st' = ERROR /\
      inputAudioContextRef st' = None /\
      outputAudioContextRef st' = None /\
      scriptProcessorRef st' = None /\
      sessionPromiseRef st' = sessionPromiseRef st /\
      connectsOf (effects st') = connectsOf (effects st) /\
      closedOf (effects st') = closedOf (effects st) ++ [i; o].
Proof.
  intros stopThrows st i o Hi Ho.
  unfold startSessionResume, tryCatch. cbn -[startSessionCatch].
  rewrite startSessionCatch_run. eexists. split; [reflexivity|].
  rewrite !effects_tornDown, closedOf_app, connectsOf_app,
    closedOf_teardown, connectsOf_teardown.
  cbn. rewrite Hi, Ho, app_nil_r.
  repeat split; reflexivity.
Qed.

Lemma refused_microphone_is_contained_witness :
  exists st',
    startSessionResume quietStop false
      (fire quietStop (ClickStart startOk) initialState) = Ok tt st' /\
    status st' = ERROR /\
    closedOf (effects st') = [1%nat; 2%nat] /\
    connectsOf (effects st') = [].
Proof.
  destruct (refused_microphone_is_contained quietStop
              (fire quietStop (ClickStart startOk) initialState)
              1 2 eq_refl eq_refl)
    as (st' & Hr & Hs & _ & _ & _ & _ & Hn & Hc).
  exists st'. split; [exact Hr|].
  split; [exact Hs|]. split; [exact Hc|exact Hn].
Defined.

Lemma fire_stop (stopThrows : nat -> bool) (st : AppState) :
  fire stopThrows ClickStop st =
  setIsLanding
    (setStatus
       (tornDown
          match sessionPromiseRef st with
          | Some s =>
              setSessionPromise
                (setEffects st (effects st ++ [SessionClose s])) None
          | None => st
          end) IDLE) true.
Proof. unfold fire, handler. rewrite stopSession_run. reflexivity. Qed.

(** A start in which no constructor throws: the lesson view,
    CONNECTING, three objects allocated (the client and the two audio
    contexts) and one more invocation waiting for the microphone. *)
Lemma fire_start_ok (stopThrows : nat -> bool) (st : AppState) :
  fire stopThrows (ClickStart startOk) st =
  mkApp CONNECTING (messages st) (transcription st) (latestFeedback st)
        false (Some (S (nextObject st))) (Some (S (S (nextObject st))))
        (scriptProcessorRef st) (nextStartTimeRef st) (sourcesRef st)
        (sessionPromiseRef st) (currentUserTextRef st)
        (currentModelTextRef st) (effects st)
        (S (S (S (nextObject st)))) (suspended st) (S (awaitingMedia st)).
Proof. destruct st. reflexivity. Qed.

(** The state a stop leaves, field by field. *)
Lemma fire_stop_explicit (stopThrows : nat -> bool) (st : AppState) :
  fire stopThrows ClickStop st =
  mkApp IDLE (messages st) (transcription st) (latestFeedback st)
        true None None None 0 [] None (currentUserTextRef st)
        (currentModelTextRef st)
        ((effects st ++
          match sessionPromiseRef st with
          | Some s => [SessionClose s]
          | None => []
          end) ++ teardownEffects st)
        (nextObject st) (suspended st) (awaitingMedia st).
Proof.
  rewrite fire_stop.
  destruct st as [s0 ms tr lf il ic oc sp ns src spr cu cm ef no su aw].
  destruct spr as [p|]; unfold tornDown, teardownEffects;
    cbn [sessionPromiseRef effects setEffects setSessionPromise status
         messages transcription latestFeedback isLanding setStatus
         setIsLanding inputAudioContextRef outputAudioContextRef
         scriptProcessorRef nextStartTimeRef sourcesRef currentUserTextRef
         currentModelTextRef nextObject suspended awaitingMedia];
    rewrite ?app_nil_r; reflexivity.
Qed.

(** The microphone is granted: the resumed [startSession] connects and
    stores the session promise, whatever the state it finds. *)
Lemma fire_media_granted (stopThrows : nat -> bool) (st : AppState) :
  fire stopThrows (MediaSettled true) st =
  mkApp (status st) (messages st) (transcription st) (latestFeedback st)
        (isLanding st) (inputAudioContextRef st) (outputAudioContextRef st)
        (scriptProcessorRef st) (nextStartTimeRef st) (sourcesRef st)
        (Some (nextObject st)) (currentUserTextRef st)
        (currentModelTextRef st) (effects st ++ [Connect (nextObject st)])
        (S (nextObject st)) (suspended st) (pred (awaitingMedia st)).
Proof. destruct st. reflexivity. Qed.

(** The open callback on a null input context: the status is set, then
    the first dereference throws. *)
Lemma onopen_null (st : AppState) :
  inputAudioContextRef st = None ->
  onopen st = Thrown (setStatus st ACTIVE).
Proof.
  destruct st as [s0 ms tr lf il ic oc sp ns src spr cu cm ef no su aw].
  cbn [inputAudioContextRef]. intros ->. reflexivity.
Qed.

(** X16.  A second stop does nothing: after [stopSession] has run once,
    running it again, or running [cleanupAudio] again, returns the very
    same state, so no device and no session is touched twice.  The
    first one calls [close()] on the stored session if there is one, on
    each audio context held, and [stop()] on each tracked source. *)
Theorem second_stop_does_nothing :
  forall (stopThrows : nat -> bool) (st : AppState),
    exists st1,
      stopSession stopThrows st = Ok tt st1 /\
      stopSession stopThrows st1 = Ok tt st1 /\
      cleanupAudio stopThrows st1 = Ok tt st1 /\
      sessionClosesOf (effects st1) =
        sessionClosesOf (effects st) ++
        match sessionPromiseRef st with Some s => [s] | None => [] end /\
      closedOf (effects st1) =
        closedOf (effects st) ++
        match inputAudioContextRef st with Some c => [c] | None => [] end ++
        match outputAudioContextRef st with Some c => [c] | None => [] end /\
      stoppedOf (effects st1) = stoppedOf (effects st) ++ sourcesRef st.
Proof.
  intros stopThrows st. eexists. split; [apply stopSession_run|].
  split; [|split].
  - rewrite stopSession_run.
    destruct st as [s0 ms tr lf il ic oc sp ns src spr cu cm ef no su aw].
    destruct spr; unfold tornDown, teardownEffects; cbn;
      rewrite app_nil_r; reflexivity.
  - rewrite cleanupAudio_run.
    destruct st as [s0 ms tr lf il ic oc sp ns src spr cu cm ef no su aw].
    destruct spr; unfold tornDown, teardownEffects; cbn;
      rewrite app_nil_r; reflexivity.
  - destruct st as [s0 ms tr lf il ic oc sp ns src spr cu cm ef no su aw].
    unfold tornDown, teardownEffects.
    destruct spr, sp, ic, oc; cbn;
      rewrite ?sessionClosesOf_app, ?closedOf_app, ?stoppedOf_app; cbn;
      rewrite ?sessionClosesOf_app, ?closedOf_app, ?stoppedOf_app; cbn;
      rewrite ?sessionClosesOf_stops, ?closedOf_stops, ?stoppedOf_stops,
        ?app_nil_r; repeat split; reflexivity.
Qed.

(** X17.  Stopping while the microphone prompt is open does not cancel
    the start.  From the landing view, a start followed by a stop and
    then by the grant of the microphone still connects to the service:
    a session promise is stored while the view is the landing view, the
    status is IDLE and both audio contexts are closed and null.  When
    the transport then opens, the open callback sets the status ACTIVE
    and throws on the null input context. *)
Theorem stop_does_not_cancel_start :
  forall (stopThrows : nat -> bool) (st : AppState),
    isLanding st = true ->
    exists st' s,
      run stopThrows [ClickStart startOk; ClickStop; MediaSettled true] st
        = Some st' /\
      isLanding st' = true /\
      status st' = IDLE /\
      inputAudioContextRef st' = None /\
      outputAudioContextRef st' = None /\
      sessionPromiseRef st' = Some s /\
      connectsOf (effects st') = connectsOf (effects st) ++ [s] /\
      exists st'', onopen st' = Thrown st'' /\
                   status st'' = ACTIVE /\ isLanding st'' = true.
Proof.
  intros stopThrows st Hl.
  eexists. exists (S (S (S (nextObject st)))).
  split.
  { cbn [run enabled]. rewrite Hl, fire_start_ok.
    cbn [isLanding negb]. rewrite fire_stop_explicit.
    cbn [awaitingMedia Nat.ltb Nat.leb]. rewrite fire_media_granted.
    cbn [sessionPromiseRef effects status messages transcription
         latestFeedback isLanding inputAudioContextRef
         outputAudioContextRef scriptProcessorRef nextStartTimeRef
         sourcesRef currentUserTextRef currentModelTextRef nextObject
         suspended awaitingMedia Nat.pred].
    reflexivity. }
  cbn [sessionPromiseRef effects status isLanding inputAudioContextRef
       outputAudioContextRef].
  repeat (split; [reflexivity|]).
  split.
  { rewrite !connectsOf_app, connectsOf_teardown, !app_nil_r.
    destruct (sessionPromiseRef st); cbn [connectsOf];
      rewrite ?app_nil_r; reflexivity. }
  eexists. split; [apply onopen_null; reflexivity|].
  split; reflexivity.
Qed.

Lemma stop_does_not_cancel_start_witness :
  exists st' s,
    run quietStop [ClickStart startOk; ClickStop; MediaSettled true]
        initialState = Some st' /\
    isLanding st' = true /\
    sessionPromiseRef st' = Some s /\
    connectsOf (effects st') = [s].
Proof.
  destruct (stop_does_not_cancel_start quietStop initialState eq_refl)
    as (st' & s & Hr & Hl & _ & _ & _ & Hp & Hc & _).
  exists st', s. repeat split; assumption.
Defined.

(** X18.  When the transport closes on its own, its callback tears the
    devices down and reports IDLE but keeps the lesson view and the
    stored session; the stop button that follows finds nothing left to
    tear down, and still calls [close()] on that session. *)
Theorem close_then_stop :
  forall (stopThrows : nat -> bool) (st : AppState),
    isLanding st = false ->
    exists st1 st2,
      run stopThrows [SessionClosed] st = Some st1 /\
      status st1 = IDLE /\ isLanding st1 = false /\
      sessionPromiseRef st1 = sessionPromiseRef st /\
      effects st1 = effects st ++ teardownEffects st /\
      run stopThrows [SessionClosed; ClickStop] st = Some st2 /\
      status st2 = IDLE /\ isLanding st2 = true /\
      sessionPromiseRef st2 = None /\
      effects st2 =
        effects st1 ++
        match sessionPromiseRef st with
        | Some s => [SessionClose s]
        | None => []
        end.
Proof.
  intros stopThrows st Hl.
  assert (E1 : fire stopThrows SessionClosed st = tornDown (setStatus st IDLE)).
  { unfold fire, handler, onclose. unfold bind at 1, modify at 1.
    rewrite cleanupAudio_run. reflexivity. }
  exists (fire stopThrows SessionClosed st).
  exists (fire stopThrows ClickStop (fire stopThrows SessionClosed st)).
  cbn [run enabled]. rewrite E1.
  split; [reflexivity|]. split; [reflexivity|]. split; [exact Hl|].
  split; [reflexivity|]. split; [reflexivity|].
  cbn [isLanding tornDown setStatus]. rewrite Hl. cbn [negb].
  split; [reflexivity|]. rewrite fire_stop.
  destruct st as [s0 ms tr lf il ic oc sp ns src spr cu cm ef no su aw].
  unfold tornDown, teardownEffects.
  destruct spr; cbn; rewrite ?app_nil_r, <- ?app_assoc;
    repeat split; reflexivity.
Qed.

Lemma close_then_stop_witness :
  exists st2,
    run quietStop [SessionClosed; ClickStop] lessonState = Some st2 /\
    sessionClosesOf (effects st2) = [3%nat] /\
    closedOf (effects st2) = [1%nat; 2%nat].
Proof.
  destruct (close_then_stop quietStop lessonState eq_refl)
    as (st1 & st2 & _ & _ & _ & _ & He1 & Hr & _ & _ & _ & He2).
  exists st2. split; [exact Hr|].
  rewrite He2, He1. split; reflexivity.
Defined.

(* ================================================================== *)
(** ** Presentation *)

Lemma emitted_category (s : jsstring) (f : CategorizedFeedback) :
  classifyFeedback s = Emit f ->
  category f = Grammar \/ category f = Pronunciation \/
  category f = NaturalPhrasing.
Proof.
  rewrite classifyFeedback_firstMatch.
  destruct (firstMatch grammarTag s).
  { intros H. injection H as <-. now left. }
  destruct (firstMatch pronunciationTag s).
  { intros H. injection H as <-. right. now left. }
  destruct (firstMatch naturalTag s); [|discriminate].
  intros H. injection H as <-. right. now right.
Qed.

(** X19.  Every feedback item that the classifier can emit is shown in
    the colour of its own category: never in the default colour, and
    two emitted items have the same colour only if they have the same
    category. *)
Theorem emitted_feedback_has_its_colour :
  forall (s s' : jsstring) (f f' : CategorizedFeedback),
    classifyFeedback s = Emit f ->
    classifyFeedback s' = Emit f' ->
    getCategoryColor (categoryName (category f))
      <> getCategoryColor (categoryName General) /\
    (getCategoryColor (categoryName (category f))
       = getCategoryColor (categoryName (category f')) ->
     category f = category f').
Proof.
  intros s s' f f' H H'.
  destruct (emitted_category s f H) as [E|[E|E]],
           (emitted_category s' f' H') as [E'|[E'|E']];
    rewrite E, E'; split; try (intros _; reflexivity);
    vm_compute; discriminate.
Qed.

Lemma emitted_feedback_has_its_colour_witness :
  getCategoryColor (categoryName Grammar)
    <> getCategoryColor (categoryName General) /\
  (getCategoryColor (categoryName Grammar)
     = getCategoryColor (categoryName Pronunciation) ->
   Grammar = Pronunciation).
Proof.
  apply (emitted_feedback_has_its_colour twoTagExample
           (js "[Pronunciation] Round your lips.")
           (mkFeedback Grammar (js "Past tense needed."))
           (mkFeedback Pronunciation (js "Round your lips.")));
    vm_compute; reflexivity.
Defined.



(* ================================================================== *)
(** ** What a match is made of *)

Lemma scan_decomposes :
  forall u c,
    scan u = Some c ->
    u = c ++ skipn (List.length c) u /\
    (skipn (List.length c) u = [] \/
     exists r, skipn (List.length c) u = LBRACKET :: r).
Proof.
  induction u as [|a t IH]; intros c H; cbn [scan] in H.
  - injection H as <-. split; [reflexivity|now left].
  - destruct (a =? LBRACKET)%N eqn:Ea.
    + injection H as <-. apply N.eqb_eq in Ea. subst a.
      split; [reflexivity|right; now exists t].
    + destruct (isLineTerminator a); [discriminate|].
      destruct (scan t) as [c'|]; [|discriminate].
      injection H as <-. destruct (IH c' eq_refl) as [H1 H2].
      cbn [List.length skipn app]. split; [now rewrite <- H1|exact H2].
Qed.

Lemma exec_tag_state (tag : jsstring) :
  forall s m,
    exec (lit tag captureTail) s = Some m ->
    exists pre s' c,
      s = pre ++ s' /\
      ciPrefix tag s' = true /\
      scan (skipn (List.length tag) s') = Some c /\
      capture1 m = Some c /\
      rest m = skipn (List.length c) (skipn (List.length tag) s').
Proof.
  assert (Hat : forall s m,
             matcher (lit tag captureTail) (mkState s None) (fun y => Some y)
             = Some m ->
             exists c,
               ciPrefix tag s = true /\
               scan (skipn (List.length tag) s) = Some c /\
               capture1 m = Some c /\
               rest m = skipn (List.length c) (skipn (List.length tag) s)).
  { intros s m H. rewrite matcher_lit in H. cbn [rest capture1] in H.
    destruct (ciPrefix tag s); [|discriminate].
    rewrite matcher_captureTail in H.
    destruct (scan (skipn (List.length tag) s)) as [c|]; [|discriminate].
    injection H as <-. exists c. repeat split; reflexivity. }
  induction s as [|a t IH]; intros m H; cbn [exec] in H.
  - destruct (matcher (lit tag captureTail) (mkState [] None)
                      (fun y => Some y)) as [y|] eqn:E; [|discriminate].
    injection H as ->. destruct (Hat [] m E) as (c & H1 & H2 & H3 & H4).
    exists [], [], c. repeat split; assumption.
  - destruct (matcher (lit tag captureTail) (mkState (a :: t) None)
                      (fun y => Some y)) as [y|] eqn:E.
    + injection H as ->. destruct (Hat (a :: t) m E) as (c & H1 & H2 & H3 & H4).
      exists [], (a :: t), c. repeat split; assumption.
    + destruct (IH m H) as (pre & s' & c & -> & H1 & H2 & H3 & H4).
      exists (a :: pre), s', c. repeat split; assumption.
Qed.

(** X21.  A match of one of the three patterns takes the transcript
    apart without loss: the transcript is some text, then the marker in
    some letter case, then the captured text, then the remainder; the
    captured text has no opening bracket and no line terminator, and
    the remainder is empty or begins with an opening bracket. *)
Theorem match_decomposes_transcript :
  forall (tag s : jsstring) (m : MatchState),
    exec (lit tag captureTail) s = Some m ->
    exists pre v c,
      capture1 m = Some c /\
      s = pre ++ v ++ c ++ rest m /\
      sameLetters v tag = true /\
      bracketFree c = true /\
      noLineTerminator c = true /\
      (rest m = [] \/ exists r, rest m = LBRACKET :: r).
Proof.
  intros tag s m H.
  destruct (exec_tag_state tag s m H) as (pre & s' & c & -> & Hp & Hs & Hc & Hr).
  apply ciPrefix_split in Hp. destruct Hp as (v & post & -> & Hv).
  rewrite <- (sameLetters_length v tag Hv) in Hs, Hr.
  rewrite skipn_app, skipn_all, Nat.sub_diag in Hs, Hr. cbn [skipn app] in Hs, Hr.
  destruct (scan_decomposes post c Hs) as [Hd Hrest].
  destruct (scan_shape post c Hs) as [Hb Hl].
  exists pre, v, c. rewrite Hr.
  split; [exact Hc|]. split; [now rewrite <- Hd|].
  repeat split; assumption.
Qed.

Lemma match_decomposes_transcript_witness :
  exists pre v c m,
    exec grammarRe twoTagExample = Some m /\
    capture1 m = Some c /\
    twoTagExample = pre ++ v ++ c ++ rest m /\
    sameLetters v grammarTag = true.
Proof.
  destruct (exec grammarRe twoTagExample) as [m|] eqn:E;
    [|vm_compute in E; discriminate E].
  destruct (match_decomposes_transcript grammarTag twoTagExample m E)
    as (pre & v & c & Hc & Hs & Hv & _).
  exists pre, v, c, m. repeat split; assumption.
Defined.

(* ================================================================== *)
(** ** The feedback item and the cutting of a turn into deltas *)






